(** * rlsuite: tabular SARSA (src/rlsuite/algos/sarsa.py)

    A shallow embedding of the function [sarsa] and the properties of its
    learning loop.

    Modelling conventions.
    - Python floats are idealised as exact rationals ([Q] of QArith); numpy's
      [==] on floats becomes [Qeq_bool].  Rounding, NaN and Inf are outside
      the model.
    - The two numpy tables ([Q] and [pi] in the source) are [list (list Q)];
      an index outside the table raises [IndexError].  States and actions are
      [nat] (gym's Discrete spaces), so negative indices do not arise.
    - numpy's global random state is the field [rng] of the [world]; the gym
      environment object and the summary writer are observed through the
      [log] of calls made to them.  The module logger and the console
      progress line are not modelled.
    - Seeds are taken inside the range numpy accepts; [np.random.seed]
      then never fails.  What the environment itself may raise is not
      modelled: its calls always answer.
    - The [while not done] loop may run for ever; the model takes a bound
      [fuel] on the iterations of one episode and answers [OutOfFuel] when it
      is exhausted. *)

From Stdlib Require Import QArith Lqa Lia ZArith String.
From stdpp Require Import base list.

Local Open Scope Q_scope.

(** ** Outcomes and the monad of the run *)

Inductive exn : Type :=
| AssertionError (msg : string)
| ValueError
| IndexError
| ZeroDivisionError.

Inductive outcome (A : Type) : Type :=
| Ret (a : A)
| Raise (e : exn)
| OutOfFuel.
Arguments Ret {A} a.
Arguments Raise {A} e.
Arguments OutOfFuel {A}.

(** Calls made to the external collaborators, oldest first. *)
Inductive event : Type :=
| EvFileWriter                              (* tf.summary.FileWriter(data_dir) *)
| EvEnvFn                                   (* env_fn() *)
| EvEnvSeed (seed : Z)                      (* env.seed(seed) *)
| EvEnvReset                                (* env.reset() *)
| EvEnvStep (action : nat)                  (* env.step(action) *)
| EvScalar (name : string) (value : Q) (i : nat)  (* tf.summary.scalar *)
| EvEnvClose                                (* env.close() *)
| EvWriterClose.                            (* summary_writer.close() *)

Record world (G : Type) : Type := World { rng : G; log : list event }.
Arguments World {G} rng log.
Arguments rng {G} w.
Arguments log {G} w.

Definition obind {A B} (o : outcome A) (k : A -> outcome B) : outcome B :=
  match o with
  | Ret a => k a
  | Raise e => Raise e
  | OutOfFuel => OutOfFuel
  end.

Definition M (G A : Type) : Type := world G -> outcome A * world G.

Definition ret {G A} (a : A) : M G A := fun w => (Ret a, w).

Definition bind {G A B} (m : M G A) (k : A -> M G B) : M G B :=
  fun w =>
    match m w with
    | (Ret a, w') => k a w'
    | (Raise e, w') => (Raise e, w')
    | (OutOfFuel, w') => (OutOfFuel, w')
    end.

Definition raise {G A} (e : exn) : M G A := fun w => (Raise e, w).

Definition lift {G A} (o : outcome A) : M G A := fun w => (o, w).

Definition emit {G} (e : event) : M G unit :=
  fun w => (Ret tt, World (rng w) (log w ++ [e])).

Declare Scope run_scope.
Delimit Scope run_scope with run.
Notation "x <- m ;; k" := (bind m (fun x => k))
  (at level 100, m at next level, right associativity) : run_scope.
Notation "m ;;; k" := (bind m (fun _ => k))
  (at level 100, right associativity) : run_scope.
Notation "x <~ o ;; k" := (obind o (fun x => k))
  (at level 100, o at next level, right associativity) : run_scope.
Local Open Scope run_scope.

(** ** The random source

    [np.random.choice(n, p=p)] and [np.random.choice(array)] both advance
    numpy's global generator.  The generator is an interface: a weighted draw
    of an index of [p] and a uniform draw below [n].  Its laws are the ones
    numpy guarantees for every seed: a weighted draw lands on an entry of
    positive probability, a uniform draw lands below its bound. *)

Definition Qsum (l : list Q) : Q := foldr Qplus 0 l.

(** The checks numpy makes on [p] before drawing. *)
Definition pvals_ok (p : list Q) : bool :=
  forallb (Qle_bool 0) p && Qeq_bool (Qsum p) 1.

Class RandomSource (G : Type) : Type := {
  rng_seed : Z -> G;
  draw_weighted : list Q -> G -> nat * G;
  draw_uniform : nat -> G -> nat * G;
  draw_weighted_support : forall (p : list Q) (g : G),
    pvals_ok p = true ->
    exists x : Q, p !! (draw_weighted p g).1 = Some x /\ 0 < x;
  draw_uniform_lt : forall (n : nat) (g : G),
    (0 < n)%nat -> ((draw_uniform n g).1 < n)%nat
}.

(** ** The environment (gym interface) *)

Record Environment : Type := {
  env_t : Type;
  env_fn : env_t;
  observation_space_n : nat;
  action_space_n : nat;
  env_seed : Z -> env_t -> env_t;
  env_reset : env_t -> nat * env_t;
  env_step : nat -> env_t -> (nat * Q * bool) * env_t
}.

(** ** numpy helpers *)

Abbreviation table := (list (list Q)).

Definition Qlt_bool (x y : Q) : bool := negb (Qle_bool y x).

(** [t[s]] *)
Definition get_row (t : table) (s : nat) : outcome (list Q) :=
  match t !! s with
  | Some r => Ret r
  | None => Raise IndexError
  end.

(** [t[s, a]] *)
Definition get2 (t : table) (s a : nat) : outcome Q :=
  match t !! s with
  | Some r => match r !! a with
              | Some x => Ret x
              | None => Raise IndexError
              end
  | None => Raise IndexError
  end.

(** [t[s, a] = v] *)
Definition set2 (t : table) (s a : nat) (v : Q) : outcome table :=
  match t !! s with
  | Some r => match r !! a with
              | Some _ => Ret (<[s := <[a := v]> r]> t)
              | None => Raise IndexError
              end
  | None => Raise IndexError
  end.

Definition qmax (x y : Q) : Q := if Qle_bool x y then y else x.

(** [r.max()] *)
Definition row_max (r : list Q) : outcome Q :=
  match r with
  | [] => Raise ValueError
  | x :: r' => Ret (foldl qmax x r')
  end.

(** [np.where(bs)[0]]: the indices holding [true], from index [i] on. *)
Fixpoint np_where_from (i : nat) (bs : list bool) : list nat :=
  match bs with
  | [] => []
  | b :: bs' => if b then i :: np_where_from (S i) bs'
                else np_where_from (S i) bs'
  end.

Definition np_where (bs : list bool) : list nat := np_where_from 0 bs.

(** [np.random.choice(n, p=p)] *)
Definition np_random_choice_p {G} `{RandomSource G}
    (n : nat) (p : list Q) : M G nat :=
  fun w =>
    if (0 <? n)%nat && (length p =? n)%nat && pvals_ok p
    then let '(i, g) := draw_weighted p (rng w) in (Ret i, World g (log w))
    else (Raise ValueError, w).

(** [np.random.choice(xs)] *)
Definition np_random_choice {G} `{RandomSource G} (xs : list nat) : M G nat :=
  fun w =>
    match xs with
    | [] => (Raise ValueError, w)
    | _ => let '(i, g) := draw_uniform (length xs) (rng w) in
           match xs !! i with
           | Some x => (Ret x, World g (log w))
           | None => (Raise IndexError, w)
           end
    end.

(** [np.random.seed(seed)] *)
Definition np_random_seed {G} `{RandomSource G} (seed : Z) : M G unit :=
  fun w => (Ret tt, World (rng_seed seed) (log w)).

(** ** The function [sarsa] *)

Definition py_assert (b : bool) (msg : string) : outcome unit :=
  if b then Ret tt else Raise (AssertionError msg).

(** The local variables of the episode loop. *)
Record locals (E : Type) : Type := Locals {
  env : E;
  Qtab : table;            (* [Q] in the source *)
  pi : table;
  state : nat;
  action : nat;
  done : bool;
  episode_length : nat;
  episode_return : Q
}.
Arguments Locals {E}.
Arguments env {E} l.
Arguments Qtab {E} l.
Arguments pi {E} l.
Arguments state {E} l.
Arguments action {E} l.
Arguments done {E} l.
Arguments episode_length {E} l.
Arguments episode_return {E} l.

Section Sarsa.

Context {G : Type} `{RandomSource G}.
Variable E : Environment.
Variables alpha epsilon gamma : Q.

Definition num_states : nat := observation_space_n E.
Definition num_actions : nat := action_space_n E.

(** [--- Parameter validation ---] *)
Definition validate (num_episodes : Z) : outcome unit :=
  _ <~ py_assert (Qlt_bool 0 alpha && Qle_bool epsilon 1)
                 "epsilon must be in (0, 1]" ;;
  _ <~ py_assert (Qle_bool 0 epsilon && Qle_bool epsilon 1)
                 "epsilon must be in [0, 1]" ;;
  _ <~ py_assert (Qle_bool 0 gamma && Qle_bool gamma 1)
                 "gamma must be in [0, 1]" ;;
  py_assert (0 <? num_episodes)%Z "num_episodes must be positive".

(** [Q[state, action] += alpha * (target - Q[state, action])], on the value. *)
Definition sarsa_update (v target : Q) : Q := v + alpha * (target - v).

(** The two values written into a policy row. *)
Definition greedy_prob : Q :=
  1 - epsilon + epsilon / inject_Z (Z.of_nat num_actions).
Definition explore_prob : Q := epsilon / inject_Z (Z.of_nat num_actions).

(** [# Update Q for the current state] *)
Definition update_Q (Q0 : table) (s a : nat) (reward : Q)
    (next_state next_action : nat) : outcome table :=
  q_next <~ get2 Q0 next_state next_action ;;
  let target := reward + gamma * q_next in
  q_old <~ get2 Q0 s a ;;
  set2 Q0 s a (sarsa_update q_old target).

(** The value written at action [a] of a policy row. *)
Definition policy_entry (best_action a : nat) : Q :=
  if (a =? best_action)%nat then greedy_prob else explore_prob.

(** [for a in np.arange(num_actions): ...], over the actions left to visit. *)
Fixpoint assign_policy (pi0 : table) (s best_action : nat) (acts : list nat)
    : outcome table :=
  match acts with
  | [] => Ret pi0
  | a :: acts' =>
    pi1 <~ set2 pi0 s a (policy_entry best_action a) ;;
    assign_policy pi1 s best_action acts'
  end.

(** [np.where(Q[state] == Q[state].max())[0]] *)
Definition best_actions_of (qrow : list Q) : outcome (list nat) :=
  m <~ row_max qrow ;;
  Ret (np_where (map (fun x => Qeq_bool x m) qrow)).

(** [# Update policy for the current state] *)
Definition update_policy (Q0 pi0 : table) (s : nat) : M G table :=
  qrow <- lift (get_row Q0 s) ;;
  best_actions <- lift (best_actions_of qrow) ;;
  best_action <- np_random_choice best_actions ;;
  lift (assign_policy pi0 s best_action (seq 0 num_actions)).

(** One iteration of [while not done]. *)
Definition loop_body (l : locals (env_t E)) : M G (locals (env_t E)) :=
  emit (EvEnvStep (action l)) ;;;
  let '(next_state, reward, done', env') := env_step E (action l) (env l) in
  p <- lift (get_row (pi l) (state l)) ;;
  next_action <- np_random_choice_p num_actions p ;;
  Q' <- lift (update_Q (Qtab l) (state l) (action l) reward
                       next_state next_action) ;;
  pi' <- update_policy Q' (pi l) (state l) ;;
  ret (Locals env' Q' pi' next_state next_action done'
              (S (episode_length l)) (episode_return l + reward)).

Fixpoint while_loop (fuel : nat) (l : locals (env_t E))
    : M G (locals (env_t E)) :=
  if done l then ret l
  else match fuel with
       | O => lift OutOfFuel
       | S fuel' => l' <- loop_body l ;; while_loop fuel' l'
       end.

(** [# Simulate one episode], up to the loop. *)
Definition episode_init (env0 : env_t E) (Q0 pi0 : table)
    : M G (locals (env_t E)) :=
  emit EvEnvReset ;;;
  let '(s, env1) := env_reset E env0 in
  p <- lift (get_row pi0 s) ;;
  a <- np_random_choice_p num_actions p ;;
  ret (Locals env1 Q0 pi0 s a false O 0).

(** [# Write episode summary] *)
Definition episode_summary (i : nat) (l : locals (env_t E)) : M G unit :=
  emit (EvScalar "episode_length"
                 (inject_Z (Z.of_nat (episode_length l))) i) ;;;
  emit (EvScalar "episode_return" (episode_return l) i).

(** The body of [for i in range(num_episodes)]. *)
Definition episode (fuel i : nat) (env0 : env_t E) (Q0 pi0 : table)
    : M G (locals (env_t E)) :=
  l0 <- episode_init env0 Q0 pi0 ;;
  l <- while_loop fuel l0 ;;
  episode_summary i l ;;;
  ret l.

Fixpoint main_loop (fuel : nat) (episodes : list nat)
    (env0 : env_t E) (Q0 pi0 : table) : M G (env_t E * table * table) :=
  match episodes with
  | [] => ret (env0, Q0, pi0)
  | i :: episodes' =>
    l <- episode fuel i env0 Q0 pi0 ;;
    main_loop fuel episodes' (env l) (Qtab l) (pi l)
  end.

(** [np.full((num_states, num_actions), 1 / num_actions)] *)
Definition initial_pi : outcome table :=
  if (num_actions =? 0)%nat then Raise ZeroDivisionError
  else Ret (replicate num_states
              (replicate num_actions (1 / inject_Z (Z.of_nat num_actions)))).

(** [np.zeros((num_states, num_actions))] *)
Definition initial_Q : table :=
  replicate num_states (replicate num_actions 0).

(** The part of [sarsa] after the validation.  The tables are locals of the
    source; the model hands them back so that a run can be observed. *)
Definition sarsa_run (fuel : nat) (num_episodes seed : Z)
    : M G (table * table) :=
  emit EvFileWriter ;;;
  emit EvEnvFn ;;;
  emit (EvEnvSeed seed) ;;;
  let env0 := env_seed E seed (env_fn E) in
  np_random_seed seed ;;;
  pi0 <- lift initial_pi ;;
  r <- main_loop fuel (seq 0 (Z.to_nat num_episodes)) env0 initial_Q pi0 ;;
  let '(env1, Q1, pi1) := r in
  emit EvEnvClose ;;;
  emit EvWriterClose ;;;
  ret (Q1, pi1).

Definition sarsa (fuel : nat) (num_episodes seed : Z) : M G (table * table) :=
  lift (validate num_episodes) ;;;
  sarsa_run fuel num_episodes seed.

End Sarsa.

(** ** Facts about the numpy helpers *)

Lemma Qlt_bool_iff (x y : Q) : Qlt_bool x y = true <-> x < y.
Proof.
  unfold Qlt_bool. rewrite negb_true_iff. split.
  - intros Hb. apply Qnot_le_lt. intros Hle.
    apply Qle_bool_iff in Hle. congruence.
  - intros Hlt. destruct (Qle_bool y x) eqn:Hb; [|reflexivity].
    apply Qle_bool_iff in Hb. exfalso. apply (Qlt_not_le _ _ Hlt Hb).
Qed.

Lemma elem_of_np_where_from (i k : nat) (bs : list bool) :
  i ∈ np_where_from k bs <-> (k <= i)%nat /\ bs !! (i - k)%nat = Some true.
Proof.
  revert k. induction bs as [|b bs IH]; intros k; simpl.
  - split; [intros Hin; inversion Hin | intros [_ Hl]; discriminate].
  - assert (Hstep : i ∈ np_where_from (S k) bs <->
                    (k < i)%nat /\ (b :: bs) !! (i - k)%nat = Some true).
    { rewrite IH. split; intros [Hle Hl]; split; try lia.
      - replace (i - k)%nat with (S (i - S k)) by lia. exact Hl.
      - replace (i - k)%nat with (S (i - S k)) in Hl by lia. exact Hl. }
    destruct b.
    + rewrite elem_of_cons, Hstep. split.
      * intros [-> | [Hlt Hl]]; [|split; [lia | exact Hl]].
        split; [lia|]. replace (k - k)%nat with O by lia. reflexivity.
      * intros [Hle Hl]. destruct (decide (i = k)) as [->|Hne]; [by left|].
        right. split; [lia | exact Hl].
    + rewrite Hstep. split.
      * intros [Hlt Hl]. split; [lia | exact Hl].
      * intros [Hle Hl]. destruct (decide (i = k)) as [->|Hne].
        -- replace (k - k)%nat with O in Hl by lia. discriminate.
        -- split; [lia | exact Hl].
Qed.

Lemma elem_of_np_where (i : nat) (bs : list bool) :
  i ∈ np_where bs <-> bs !! i = Some true.
Proof.
  unfold np_where. rewrite elem_of_np_where_from.
  replace (i - 0)%nat with i by lia. split; [tauto | split; [lia | done]].
Qed.

Lemma np_where_from_lt (i k : nat) (bs : list bool) :
  i ∈ np_where_from k bs -> (k <= i < k + length bs)%nat.
Proof.
  rewrite elem_of_np_where_from. intros [Hle Hl].
  apply lookup_lt_Some in Hl. lia.
Qed.

Lemma NoDup_np_where_from (k : nat) (bs : list bool) :
  NoDup (np_where_from k bs).
Proof.
  revert k. induction bs as [|b bs IH]; intros k; simpl; [constructor|].
  destruct b; [|apply IH].
  constructor; [|apply IH].
  intros Hin. apply np_where_from_lt in Hin. lia.
Qed.

(** ** A scripted random source

    The generator of the test fixtures: seeding installs the tape [script
    seed]; a draw consumes the head [k] of the tape ([0] once it is empty).
    A weighted draw returns the entry number [k mod m] among the [m] entries
    of positive probability, a uniform draw returns [k mod n]. *)

Definition tape_next (g : list nat) : nat * list nat :=
  match g with
  | [] => (O, [])
  | k :: g' => (k, g')
  end.

Definition scripted_weighted (p : list Q) (g : list nat) : nat * list nat :=
  let pos := np_where (map (Qlt_bool 0) p) in
  let '(k, g') := tape_next g in
  (default O (pos !! (k mod length pos)%nat), g').

Definition scripted_uniform (n : nat) (g : list nat) : nat * list nat :=
  let '(k, g') := tape_next g in ((k mod n)%nat, g').

Lemma Qsum_nonpos (p : list Q) :
  np_where (map (Qlt_bool 0) p) = [] -> Qsum p <= 0.
Proof.
  intros Hnil.
  assert (Hall : forall x, x ∈ p -> x <= 0).
  { intros x Hx. apply list_elem_of_lookup in Hx as [i Hi].
    destruct (Qlt_le_dec 0 x) as [Hlt|Hle]; [|exact Hle].
    exfalso. assert (Hin : i ∈ np_where (map (Qlt_bool 0) p)).
    { apply elem_of_np_where. rewrite list_lookup_fmap, Hi. simpl.
      f_equal. by apply Qlt_bool_iff. }
    rewrite Hnil in Hin. inversion Hin. }
  clear Hnil. induction p as [|x p IH]; simpl; [lra|].
  assert (x <= 0) by (apply Hall; left).
  assert (Qsum p <= 0) by (apply IH; intros y Hy; apply Hall; by right).
  lra.
Qed.

Lemma scripted_weighted_support (p : list Q) (g : list nat) :
  pvals_ok p = true ->
  exists x : Q, p !! (scripted_weighted p g).1 = Some x /\ 0 < x.
Proof.
  unfold pvals_ok. rewrite andb_true_iff. intros [_ Hsum].
  apply Qeq_bool_iff in Hsum.
  unfold scripted_weighted. destruct (tape_next g) as [k g']. simpl.
  set (pos := np_where (map (Qlt_bool 0) p)).
  assert (Hne : pos <> []).
  { intros Hnil. apply Qsum_nonpos in Hnil. lra. }
  assert (Hlt : (k mod length pos < length pos)%nat).
  { apply Nat.mod_upper_bound. destruct pos; [done | simpl; lia]. }
  apply lookup_lt_is_Some in Hlt as [i Hi]. rewrite Hi. simpl.
  assert (Hin : i ∈ pos) by (eapply list_elem_of_lookup_2; exact Hi).
  apply elem_of_np_where in Hin. rewrite list_lookup_fmap in Hin.
  destruct (p !! i) as [x|] eqn:Hx; [|discriminate].
  exists x. split; [reflexivity|]. apply Qlt_bool_iff.
  simpl in Hin. congruence.
Qed.

Lemma scripted_uniform_lt (n : nat) (g : list nat) :
  (0 < n)%nat -> ((scripted_uniform n g).1 < n)%nat.
Proof.
  intros Hn. unfold scripted_uniform. destruct (tape_next g) as [k g'].
  simpl. apply Nat.mod_upper_bound. lia.
Qed.

Definition scripted (script : Z -> list nat) : RandomSource (list nat) := {|
  rng_seed := script;
  draw_weighted := scripted_weighted;
  draw_uniform := scripted_uniform;
  draw_weighted_support := scripted_weighted_support;
  draw_uniform_lt := scripted_uniform_lt
|}.

(** ** The fixture of the end-to-end scenario

    Two states, two actions.  Action 0 from state 0 gives reward 1 and moves
    to state 1; every other transition gives reward 0 and keeps the state.
    The fixture ends the episode after one transition. *)

Definition fixture_step (a : nat) (s : nat) : (nat * Q * bool) * nat :=
  match s, a with
  | O, O => ((1%nat, 1, true), 1%nat)
  | O, _ => ((O, 0, true), O)
  | _, _ => ((1%nat, 0, true), 1%nat)
  end.

Definition fixture : Environment := {|
  env_t := nat;
  env_fn := O;
  observation_space_n := 2;
  action_space_n := 2;
  env_seed := fun _ s => s;
  env_reset := fun _ => (O, O);
  env_step := fixture_step
|}.

(** ** Inversion of the monad *)

Lemma bind_Ret_inv {G A B} (m : M G A) (k : A -> M G B) w b w' :
  bind m k w = (Ret b, w') ->
  exists a w1, m w = (Ret a, w1) /\ k a w1 = (Ret b, w').
Proof.
  unfold bind. destruct (m w) as [[a| |] w1]; intros Hk; try discriminate.
  by exists a, w1.
Qed.

Lemma bind_Ret_intro {G A B} (m : M G A) (k : A -> M G B) w a w1 :
  m w = (Ret a, w1) -> bind m k w = k a w1.
Proof. unfold bind. by intros ->. Qed.

Lemma lift_Ret_inv {G A} (o : outcome A) (w : world G) a w' :
  lift o w = (Ret a, w') -> o = Ret a /\ w' = w.
Proof. unfold lift. intros [= -> ->]. done. Qed.

Lemma obind_Ret_inv {A B} (o : outcome A) (k : A -> outcome B) b :
  obind o k = Ret b -> exists a, o = Ret a /\ k a = Ret b.
Proof. destruct o as [a| |]; simpl; intros Hk; try discriminate. by exists a. Qed.

Ltac inv_run :=
  repeat match goal with
  | Hb : bind _ _ _ = (Ret _, _) |- _ =>
      apply bind_Ret_inv in Hb as (? & ? & ? & ?)
  | Hb : lift _ _ = (Ret _, _) |- _ =>
      apply lift_Ret_inv in Hb as [? ?]; subst
  | Hb : obind _ _ = Ret _ |- _ =>
      apply obind_Ret_inv in Hb as (? & ? & ?)
  | Hb : emit _ _ = (Ret _, _) |- _ =>
      unfold emit in Hb; injection Hb as ? ?; subst
  | Hb : ret _ _ = (Ret _, _) |- _ =>
      unfold ret in Hb; injection Hb as ? ?; subst
  end.

Section Choice.

Context {G : Type} `{RandomSource G}.

Lemma np_random_choice_p_inv (n : nat) (p : list Q) (w w' : world G) i :
  np_random_choice_p n p w = (Ret i, w') ->
  (0 < n)%nat /\ length p = n /\ pvals_ok p = true /\
  draw_weighted p (rng w) = (i, rng w') /\ log w' = log w.
Proof.
  unfold np_random_choice_p.
  destruct (0 <? n)%nat eqn:Hn; simpl; [|discriminate].
  destruct (length p =? n)%nat eqn:Hlen; simpl; [|discriminate].
  destruct (pvals_ok p) eqn:Hok; [|discriminate].
  destruct (draw_weighted p (rng w)) as [j g]. intros [= -> <-]. simpl.
  apply Nat.ltb_lt in Hn. apply Nat.eqb_eq in Hlen. done.
Qed.

Lemma np_random_choice_p_total (n : nat) (p : list Q) (w : world G) :
  (0 < n)%nat -> length p = n -> pvals_ok p = true ->
  exists i g, draw_weighted p (rng w) = (i, g) /\ (i < n)%nat /\
              np_random_choice_p n p w = (Ret i, World g (log w)).
Proof.
  intros Hn Hlen Hok. unfold np_random_choice_p.
  apply Nat.ltb_lt in Hn as Hn'. rewrite Hn'.
  apply Nat.eqb_eq in Hlen as Hlen'. rewrite Hlen', Hok. simpl.
  pose proof (draw_weighted_support p (rng w) Hok) as (x & Hx & _).
  destruct (draw_weighted p (rng w)) as [i g]. exists i, g.
  split; [done|]. split; [|done].
  apply lookup_lt_Some in Hx. simpl in Hx. lia.
Qed.

Lemma np_random_choice_inv (xs : list nat) (w w' : world G) x :
  np_random_choice xs w = (Ret x, w') ->
  exists i, draw_uniform (length xs) (rng w) = (i, rng w') /\
            xs !! i = Some x /\ log w' = log w.
Proof.
  unfold np_random_choice. destruct xs as [|y ys]; [discriminate|].
  destruct (draw_uniform _ (rng w)) as [i g].
  destruct (_ !! i) as [z|] eqn:Hz; [|discriminate].
  intros [= -> <-]. by exists i.
Qed.

Lemma np_random_choice_total (xs : list nat) (w : world G) :
  xs <> [] ->
  exists i g x, draw_uniform (length xs) (rng w) = (i, g) /\
                xs !! i = Some x /\
                np_random_choice xs w = (Ret x, World g (log w)).
Proof.
  intros Hne. unfold np_random_choice.
  destruct xs as [|y ys]; [done|].
  assert (Hpos : (0 < length (y :: ys))%nat) by (simpl; lia).
  pose proof (draw_uniform_lt _ (rng w) Hpos) as Hlt.
  destruct (draw_uniform _ (rng w)) as [i g].
  destruct (lookup_lt_is_Some_2 (y :: ys) i Hlt) as [x Hx].
  exists i, g, x. by rewrite Hx.
Qed.

End Choice.

(** ** Parameter validation *)

Section Validation.

Variables alpha epsilon gamma : Q.

Lemma validate_Ret_iff (num_episodes : Z) :
  validate alpha epsilon gamma num_episodes = Ret tt <->
  0 < alpha /\ 0 <= epsilon <= 1 /\ 0 <= gamma <= 1 /\ (0 < num_episodes)%Z.
Proof.
  unfold validate, py_assert, obind.
  destruct (Qlt_bool 0 alpha) eqn:Ha; destruct (Qle_bool epsilon 1) eqn:He1;
    destruct (Qle_bool 0 epsilon) eqn:He0; destruct (Qle_bool 0 gamma) eqn:Hg0;
    destruct (Qle_bool gamma 1) eqn:Hg1;
    destruct (0 <? num_episodes)%Z eqn:Hn; simpl;
    repeat match goal with
    | Hb : Qlt_bool _ _ = true |- _ => apply Qlt_bool_iff in Hb
    | Hb : Qle_bool _ _ = true |- _ => apply Qle_bool_iff in Hb
    | Hb : Qlt_bool _ _ = false |- _ =>
        apply not_true_iff_false in Hb; rewrite Qlt_bool_iff in Hb
    | Hb : Qle_bool _ _ = false |- _ =>
        apply not_true_iff_false in Hb; rewrite Qle_bool_iff in Hb
    | Hb : (_ <? _)%Z = true |- _ => apply Z.ltb_lt in Hb
    | Hb : (_ <? _)%Z = false |- _ => apply Z.ltb_ge in Hb
    end;
    (split; [intros Hr; try discriminate Hr; repeat split; assumption
            | intros (? & [? ?] & [? ?] & ?); try reflexivity;
              try contradiction; try lia]).
Qed.

Lemma validate_cases (num_episodes : Z) :
  validate alpha epsilon gamma num_episodes = Ret tt \/
  exists msg, validate alpha epsilon gamma num_episodes
              = Raise (AssertionError msg).
Proof.
  unfold validate, py_assert, obind.
  repeat match goal with
  | |- context [if ?b then _ else _] => destruct b; simpl
  end; eauto.
Qed.

End Validation.

(** ** The log only grows *)

Definition appends {G A} (m : M G A) : Prop :=
  forall w, exists evs, log (m w).2 = log w ++ evs.

Lemma appends_ret {G A} (a : A) : appends (@ret G A a).
Proof. intros w. exists []. simpl. by rewrite app_nil_r. Qed.

Lemma appends_lift {G A} (o : outcome A) : appends (@lift G A o).
Proof. intros w. exists []. simpl. by rewrite app_nil_r. Qed.

Lemma appends_emit {G} (e : event) : appends (@emit G e).
Proof. intros w. by exists [e]. Qed.

Lemma appends_bind {G A B} (m : M G A) (k : A -> M G B) :
  appends m -> (forall a, appends (k a)) -> appends (bind m k).
Proof.
  intros Hm Hk w. unfold bind. destruct (Hm w) as [evs Hevs].
  destruct (m w) as [[a| |] w1]; simpl in *; try by exists evs.
  destruct (Hk a w1) as [evs' Hevs']. exists (evs ++ evs').
  by rewrite Hevs', Hevs, app_assoc.
Qed.

Lemma appends_np_random_choice_p {G} `{RandomSource G} n p :
  appends (np_random_choice_p n p).
Proof.
  intros w. exists []. rewrite app_nil_r. unfold np_random_choice_p.
  destruct (_ && _); [|done]. by destruct (draw_weighted p (rng w)).
Qed.

Lemma appends_np_random_choice {G} `{RandomSource G} xs :
  appends (np_random_choice xs).
Proof.
  intros w. exists []. rewrite app_nil_r. unfold np_random_choice.
  destruct xs; [done|]. destruct (draw_uniform _ (rng w)) as [i g].
  by destruct (_ !! i).
Qed.

Lemma appends_np_random_seed {G} `{RandomSource G} seed :
  appends (np_random_seed seed).
Proof. intros w. exists []. simpl. by rewrite app_nil_r. Qed.

Create HintDb appends discriminated.
#[export] Hint Resolve appends_ret appends_lift appends_emit
  appends_np_random_choice_p appends_np_random_choice
  appends_np_random_seed : appends.

Ltac appends_tac :=
  repeat first
    [ apply appends_bind; [|intros ?]
    | progress auto with appends
    | match goal with
      | |- appends (let '(_, _) := ?x in _) => destruct x
      end ].

Section Appends.

Context {G : Type} `{RandomSource G}.
Variable E : Environment.
Variables alpha epsilon gamma : Q.

Lemma appends_update_policy Q0 pi0 s :
  appends (update_policy E epsilon Q0 pi0 s).
Proof. unfold update_policy. appends_tac. Qed.

Lemma appends_loop_body l : appends (loop_body E alpha epsilon gamma l).
Proof.
  unfold loop_body. appends_tac.
Qed.

Lemma appends_while_loop fuel l :
  appends (while_loop E alpha epsilon gamma fuel l).
Proof.
  revert l. induction fuel as [|fuel IH]; intros l; simpl;
    destruct (done l); appends_tac; first [apply appends_loop_body | apply IH].
Qed.

Lemma appends_episode_init env0 Q0 pi0 : appends (episode_init E env0 Q0 pi0).
Proof. unfold episode_init. appends_tac. Qed.

Lemma appends_episode fuel i env0 Q0 pi0 :
  appends (episode E alpha epsilon gamma fuel i env0 Q0 pi0).
Proof.
  unfold episode, episode_summary. appends_tac; apply appends_while_loop.
Qed.

Lemma appends_main_loop fuel episodes env0 Q0 pi0 :
  appends (main_loop E alpha epsilon gamma fuel episodes env0 Q0 pi0).
Proof.
  revert env0 Q0 pi0. induction episodes as [|i episodes IH];
    intros env0 Q0 pi0; simpl; appends_tac;
    first [apply appends_episode | apply appends_while_loop | apply IH].
Qed.

End Appends.

(** ** Validation: rejected and accepted parameters *)

(** C5.  When a parameter violates [alpha > 0], [epsilon] in [0,1], [gamma]
    in [0,1] or [num_episodes > 0], [sarsa] raises an assertion error and
    leaves the world as it found it: the log has no new event (the
    environment was neither created, seeded, reset nor stepped), the random
    source is untouched, and no table exists. *)
Theorem sarsa_rejects_bad_parameters {G : Type} `{RandomSource G}
    (E : Environment) (alpha epsilon gamma : Q) (fuel : nat)
    (num_episodes seed : Z) (w : world G) :
  ~ (0 < alpha /\ 0 <= epsilon <= 1 /\ 0 <= gamma <= 1 /\
     (0 < num_episodes)%Z) ->
  exists msg,
    sarsa E alpha epsilon gamma fuel num_episodes seed w
    = (Raise (AssertionError msg), w).
Proof.
  intros Hbad. unfold sarsa, bind, lift.
  destruct (validate_cases alpha epsilon gamma num_episodes) as [Hok|[msg Hm]].
  - apply validate_Ret_iff in Hok. contradiction.
  - exists msg. by rewrite Hm.
Qed.

Definition no_script : Z -> list nat := fun _ => [].

Lemma sarsa_rejects_bad_parameters_witness :
  (exists msg,
     @sarsa _ (scripted no_script) fixture (1#2) (1#10) 1 5 0 0
            (World [3%nat] [])
     = (Raise (AssertionError msg), World [3%nat] []))
  /\ (exists msg,
        @sarsa _ (scripted no_script) fixture 0 (1#10) 1 5 3 0
               (World [3%nat] [])
        = (Raise (AssertionError msg), World [3%nat] []))
  /\ (exists msg,
        @sarsa _ (scripted no_script) fixture (1#2) (-1#10) 1 5 3 0
               (World [3%nat] [])
        = (Raise (AssertionError msg), World [3%nat] []))
  /\ (exists msg,
        @sarsa _ (scripted no_script) fixture (1#2) (1#10) (3#2) 5 3 0
               (World [3%nat] [])
        = (Raise (AssertionError msg), World [3%nat] [])).
Proof.
  repeat split;
    apply (@sarsa_rejects_bad_parameters _ (scripted no_script));
    vm_compute; intuition discriminate.
Defined.

(** C9.  The validation has no upper bound on [alpha]: with [alpha > 1] and
    the other parameters in range it succeeds, [sarsa] goes on with the run,
    and the run opens the summary writer, creates the environment and seeds
    it. *)
Theorem sarsa_accepts_alpha_above_one {G : Type} `{RandomSource G}
    (E : Environment) (alpha epsilon gamma : Q) (fuel : nat)
    (num_episodes seed : Z) (w : world G) :
  1 < alpha -> 0 <= epsilon <= 1 -> 0 <= gamma <= 1 ->
  (0 < num_episodes)%Z ->
  validate alpha epsilon gamma num_episodes = Ret tt /\
  sarsa E alpha epsilon gamma fuel num_episodes seed w
  = sarsa_run E alpha epsilon gamma fuel num_episodes seed w /\
  exists evs,
    log (sarsa E alpha epsilon gamma fuel num_episodes seed w).2
    = log w ++ EvFileWriter :: EvEnvFn :: EvEnvSeed seed :: evs.
Proof.
  intros Ha He Hg Hn.
  assert (Hv : validate alpha epsilon gamma num_episodes = Ret tt).
  { apply validate_Ret_iff. repeat split; try tauto. lra. }
  assert (Hs : sarsa E alpha epsilon gamma fuel num_episodes seed w
               = sarsa_run E alpha epsilon gamma fuel num_episodes seed w).
  { unfold sarsa, bind, lift. by rewrite Hv. }
  split; [exact Hv|]. split; [exact Hs|]. rewrite Hs.
  unfold sarsa_run.
  rewrite (bind_Ret_intro (emit EvFileWriter) _ w tt _ eq_refl).
  rewrite (bind_Ret_intro (emit EvEnvFn) _ _ tt _ eq_refl).
  rewrite (bind_Ret_intro (emit (EvEnvSeed seed)) _ _ tt _ eq_refl).
  match goal with
  | |- exists evs, log (?m ?w0).2 = _ =>
      assert (Happ : appends m)
  end.
  { appends_tac; apply appends_main_loop. }
  match goal with
  | |- exists evs, log (?m ?w0).2 = _ => destruct (Happ w0) as [evs Hevs]
  end.
  exists evs. rewrite Hevs. simpl. by rewrite <- !app_assoc.
Qed.

Lemma sarsa_accepts_alpha_above_one_witness :
  validate 2 (1#10) 1 1 = Ret tt /\
  @sarsa _ (scripted no_script) fixture 2 (1#10) 1 5 1 0 (World [] [])
  = @sarsa_run _ (scripted no_script) fixture 2 (1#10) 1 5 1 0 (World [] []) /\
  exists evs,
    log (@sarsa _ (scripted no_script) fixture 2 (1#10) 1 5 1 0
                (World [] [])).2
    = [] ++ EvFileWriter :: EvEnvFn :: EvEnvSeed 0 :: evs.
Proof.
  apply (@sarsa_accepts_alpha_above_one _ (scripted no_script));
    vm_compute; intuition discriminate.
Defined.

(** ** The update as a step toward the target *)










(** ** Tables *)

Definition table_dims (S A : nat) (t : table) : Prop :=
  length t = S /\ Forall (fun r => length r = A) t.

Lemma table_dims_lookup S A t s :
  table_dims S A t -> (s < S)%nat -> exists r, t !! s = Some r /\ length r = A.
Proof.
  intros [Hlen Hrows] Hs. rewrite <- Hlen in Hs.
  destruct (lookup_lt_is_Some_2 t s Hs) as [r Hr]. exists r. split; [done|].
  eapply Forall_lookup_1 in Hrows; eauto.
Qed.

Lemma table_dims_insert S A t s r :
  table_dims S A t -> length r = A -> table_dims S A (<[s := r]> t).
Proof.
  intros [Hlen Hrows] Hr. split; [by rewrite length_insert|].
  by apply Forall_insert.
Qed.

Lemma table_dims_replicate S A x : table_dims S A (replicate S (replicate A x)).
Proof.
  split; [apply length_replicate|].
  apply Forall_replicate. apply length_replicate.
Qed.

Lemma get2_Ret (t : table) s a x :
  get2 t s a = Ret x <-> exists r, t !! s = Some r /\ r !! a = Some x.
Proof.
  unfold get2. split.
  - destruct (t !! s) as [r|]; [|discriminate].
    destruct (r !! a) as [y|] eqn:Hy; [|discriminate]. intros [= ->].
    by exists r.
  - intros (r & -> & ->). done.
Qed.

Lemma set2_Ret (t : table) s a v t' :
  set2 t s a v = Ret t' <->
  exists r, t !! s = Some r /\ (a < length r)%nat /\
            t' = <[s := <[a := v]> r]> t.
Proof.
  unfold set2. split.
  - destruct (t !! s) as [r|]; [|discriminate].
    destruct (r !! a) as [y|] eqn:Hy; [|discriminate]. intros [= <-].
    exists r. apply lookup_lt_Some in Hy. done.
  - intros (r & -> & Ha & ->).
    destruct (lookup_lt_is_Some_2 r a Ha) as [y ->]. done.
Qed.

Lemma get2_set2_eq (t t' : table) s a v :
  set2 t s a v = Ret t' -> get2 t' s a = Ret v.
Proof.
  rewrite set2_Ret. intros (r & Hr & Ha & ->). apply get2_Ret.
  exists (<[a := v]> r). split.
  - apply list_lookup_insert_eq. by eapply lookup_lt_Some.
  - by apply list_lookup_insert_eq.
Qed.

Lemma get2_set2_ne (t t' : table) s a v s' a' :
  set2 t s a v = Ret t' -> (s', a') <> (s, a) -> get2 t' s' a' = get2 t s' a'.
Proof.
  rewrite set2_Ret. intros (r & Hr & Ha & ->) Hne. unfold get2.
  destruct (decide (s' = s)) as [->|Hs].
  - rewrite list_lookup_insert_eq by (by eapply lookup_lt_Some). rewrite Hr.
    rewrite list_lookup_insert_ne; [done|]. congruence.
  - by rewrite list_lookup_insert_ne.
Qed.

Lemma set2_row_ne (t t' : table) s a v s' :
  set2 t s a v = Ret t' -> s' <> s -> t' !! s' = t !! s'.
Proof.
  rewrite set2_Ret. intros (r & Hr & Ha & ->) Hne.
  by rewrite list_lookup_insert_ne.
Qed.

Lemma set2_dims S A (t t' : table) s a v :
  set2 t s a v = Ret t' -> table_dims S A t -> table_dims S A t'.
Proof.
  rewrite set2_Ret. intros (r & Hr & Ha & ->) Hd.
  apply table_dims_insert; [done|]. rewrite length_insert.
  destruct Hd as [_ Hrows]. eapply Forall_lookup_1 in Hrows; eauto.
Qed.

(** ** The row maximum and the tied set *)

Lemma qmax_ge_l x y : x <= qmax x y.
Proof.
  unfold qmax. destruct (Qle_bool x y) eqn:Hb; [|lra].
  by apply Qle_bool_iff in Hb.
Qed.

Lemma qmax_ge_r x y : y <= qmax x y.
Proof.
  unfold qmax. destruct (Qle_bool x y) eqn:Hb; [lra|].
  apply not_true_iff_false in Hb. rewrite Qle_bool_iff in Hb. lra.
Qed.

Lemma qmax_cases x y : qmax x y = x \/ qmax x y = y.
Proof. unfold qmax. destruct (Qle_bool x y); auto. Qed.

Lemma foldl_qmax_spec (r : list Q) (x : Q) :
  (x <= foldl qmax x r /\ forall y, y ∈ r -> y <= foldl qmax x r) /\
  (foldl qmax x r = x \/ foldl qmax x r ∈ r).
Proof.
  revert x. induction r as [|z r IH]; intros x; simpl.
  - split; [split; [lra|]|by left]. intros y Hy. inversion Hy.
  - destruct (IH (qmax x z)) as [[Hx Hall] Hin].
    pose proof (qmax_ge_l x z). pose proof (qmax_ge_r x z).
    split; [split|].
    + lra.
    + intros y [->|Hy]%elem_of_cons; [lra | by apply Hall].
    + destruct Hin as [Heq|Hin]; [|right; by right].
      rewrite Heq. destruct (qmax_cases x z) as [->| ->]; [by left|].
      right. by left.
Qed.

Lemma row_max_spec (r : list Q) (m : Q) :
  row_max r = Ret m -> m ∈ r /\ forall y, y ∈ r -> y <= m.
Proof.
  destruct r as [|x r]; simpl; [discriminate|]. intros [= <-].
  destruct (foldl_qmax_spec r x) as [[Hx Hall] Hin]. split.
  - destruct Hin as [->|Hin]; [by left | by right].
  - intros y [->|Hy]%elem_of_cons; [done | by apply Hall].
Qed.

(** [a] attains the maximum of [r]. *)
Definition argmax (r : list Q) (a : nat) : Prop :=
  exists x, r !! a = Some x /\ forall y, y ∈ r -> y <= x.

Lemma best_actions_of_spec (qrow : list Q) (bs : list nat) :
  best_actions_of qrow = Ret bs ->
  bs <> [] /\ NoDup bs /\ forall a, a ∈ bs <-> argmax qrow a.
Proof.
  unfold best_actions_of. intros Hb. apply obind_Ret_inv in Hb as (m & Hm & Hb).
  injection Hb as <-. apply row_max_spec in Hm as [Hin Hmax].
  assert (Hmem : forall a, a ∈ np_where (map (fun x => Qeq_bool x m) qrow)
                           <-> argmax qrow a).
  { intros a. rewrite elem_of_np_where, list_lookup_fmap. split.
    - destruct (qrow !! a) as [x|] eqn:Hx; [|discriminate]. simpl.
      intros [= Heq]. apply Qeq_bool_iff in Heq. exists x. split; [done|].
      intros y Hy. rewrite Heq. by apply Hmax.
    - intros (x & Hx & Hle). rewrite Hx. simpl. f_equal.
      apply Qeq_bool_iff. apply Qle_antisym.
      + apply Hmax. by eapply list_elem_of_lookup_2.
      + by apply Hle. }
  split; [|split; [apply NoDup_np_where_from | exact Hmem]].
  apply list_elem_of_lookup in Hin as [a Ha].
  assert (Ha' : a ∈ np_where (map (fun x => Qeq_bool x m) qrow)).
  { apply Hmem. exists m. done. }
  intros Hnil. rewrite Hnil in Ha'. inversion Ha'.
Qed.

Lemma best_actions_of_total (qrow : list Q) :
  qrow <> [] -> exists bs, best_actions_of qrow = Ret bs.
Proof.
  destruct qrow as [|x r]; [done|]. intros _. unfold best_actions_of.
  simpl. eauto.
Qed.

(** ** Policy rows *)

Section PolicyRows.

Variable E : Environment.
Variable epsilon : Q.

Abbreviation A := (num_actions E).
Abbreviation greedy := (greedy_prob E epsilon).
Abbreviation explore := (explore_prob E epsilon).

(** The row the derivation writes when [b] is the greedy action. *)
Definition derived_row (b : nat) : list Q :=
  map (policy_entry E epsilon b) (seq 0 A).

(** A row of the policy table: one entry per action, each between the
    exploration floor and the greedy value, summing to one. *)
Definition policy_row (r : list Q) : Prop :=
  length r = A /\
  Forall (fun x => explore <= x /\ x <= greedy) r /\
  Qsum r == 1.

Definition uniform_row : list Q :=
  replicate A (1 / inject_Z (Z.of_nat A)).

Lemma lookup_foldl_insert_seq (f : nat -> Q) (r : list Q) (k n i : nat) :
  foldl (fun r a => <[a := f a]> r) r (seq k n) !! i
  = if decide ((k <= i < k + n)%nat /\ (i < length r)%nat)
    then Some (f i) else r !! i.
Proof.
  revert r k. induction n as [|n IH]; intros r k; simpl.
  - destruct (decide _) as [[? ?]|]; [lia | done].
  - rewrite IH, length_insert.
    destruct (decide ((S k <= i < S k + n)%nat /\ _)) as [[? ?]|Hn].
    + rewrite decide_True by lia. done.
    + destruct (decide (i = k)) as [->|Hne].
      * destruct (decide (k < length r)%nat).
        -- rewrite list_lookup_insert_eq by done.
           rewrite decide_True by lia. done.
        -- rewrite decide_False by lia.
           rewrite !lookup_ge_None_2; [done|lia|rewrite length_insert; lia].
      * rewrite list_lookup_insert_ne by done.
        rewrite decide_False by lia. done.
Qed.

Lemma foldl_insert_seq_all (f : nat -> Q) (r : list Q) :
  foldl (fun r a => <[a := f a]> r) r (seq 0 (length r))
  = map f (seq 0 (length r)).
Proof.
  apply list_eq. intros i. rewrite lookup_foldl_insert_seq, list_lookup_fmap.
  destruct (decide (i < length r)%nat) as [Hi|Hi].
  - rewrite decide_True by lia. by rewrite lookup_seq_lt.
  - rewrite decide_False by lia.
    rewrite lookup_seq_ge by lia. simpl. apply lookup_ge_None_2. lia.
Qed.

Lemma assign_policy_seq (pi0 : table) (s b : nat) (r : list Q) (k n : nat) :
  pi0 !! s = Some r -> (k + n <= length r)%nat ->
  assign_policy E epsilon pi0 s b (seq k n)
  = Ret (<[s := foldl (fun r a => <[a := policy_entry E epsilon b a]> r)
                      r (seq k n)]> pi0).
Proof.
  revert pi0 r k. induction n as [|n IH]; intros pi0 r k Hr Hk; simpl.
  - by rewrite list_insert_id.
  - assert (Hs : (s < length pi0)%nat) by (by eapply lookup_lt_Some).
    assert (Hset : set2 pi0 s k (policy_entry E epsilon b k)
                   = Ret (<[s := <[k := policy_entry E epsilon b k]> r]> pi0)).
    { apply set2_Ret. exists r. split; [done|]. split; [lia | done]. }
    rewrite Hset. simpl.
    rewrite (IH _ (<[k := policy_entry E epsilon b k]> r)).
    + by rewrite list_insert_insert_eq.
    + by apply list_lookup_insert_eq.
    + rewrite length_insert. lia.
Qed.

(** The [for] loop over the actions rewrites row [s] to [derived_row]. *)
Lemma assign_policy_all (pi0 : table) (s b : nat) (r : list Q) :
  pi0 !! s = Some r -> length r = A ->
  assign_policy E epsilon pi0 s b (seq 0 A)
  = Ret (<[s := derived_row b]> pi0).
Proof.
  intros Hr Hlen. rewrite (assign_policy_seq pi0 s b r) by (done || lia).
  rewrite <- Hlen, foldl_insert_seq_all. unfold derived_row.
  by rewrite Hlen.
Qed.

Lemma assign_policy_Ret_inv (pi0 pi1 : table) (s b : nat) :
  (0 < A)%nat ->
  assign_policy E epsilon pi0 s b (seq 0 A) = Ret pi1 ->
  exists r, pi0 !! s = Some r.
Proof.
  intros HA. destruct A as [|n] eqn:HeqA; [lia|]. simpl.
  intros Hb. apply obind_Ret_inv in Hb as (pi' & Hset & _).
  apply set2_Ret in Hset as (r & Hr & _). by exists r.
Qed.

Lemma length_derived_row b : length (derived_row b) = A.
Proof. unfold derived_row. by rewrite length_map, length_seq. Qed.

Lemma lookup_derived_row b a :
  (a < A)%nat -> derived_row b !! a = Some (policy_entry E epsilon b a).
Proof.
  intros Ha. unfold derived_row.
  by rewrite list_lookup_fmap, lookup_seq_lt.
Qed.

Lemma Qsum_entries (b k n : nat) :
  Qsum (map (policy_entry E epsilon b) (seq k n))
  == inject_Z (Z.of_nat n) * explore
     + (if decide (k <= b < k + n)%nat then greedy - explore else 0).
Proof.
  revert k. induction n as [|n IH]; intros k.
  - simpl. rewrite decide_False by lia. ring.
  - change (seq k (S n)) with (k :: seq (S k) n).
    change (Qsum (map (policy_entry E epsilon b) (k :: seq (S k) n)))
      with (policy_entry E epsilon b k
            + Qsum (map (policy_entry E epsilon b) (seq (S k) n))).
    rewrite IH, Nat2Z.inj_succ. unfold Z.succ. rewrite inject_Z_plus.
    unfold policy_entry.
    destruct (Nat.eqb_spec k b) as [->|Hne].
    + rewrite decide_False by lia. rewrite decide_True by lia. ring.
    + destruct (decide (S k <= b < S k + n)%nat).
      * rewrite decide_True by lia. ring.
      * rewrite decide_False by lia. ring.
Qed.

Section Bounds.

Hypothesis epsilon_range : 0 <= epsilon <= 1.
Hypothesis actions_pos : (0 < A)%nat.

Lemma inject_A_pos : 0 < inject_Z (Z.of_nat A).
Proof.
  change 0 with (inject_Z 0). rewrite <- Zlt_Qlt. lia.
Qed.

Lemma inv_A_bounds :
  0 < / inject_Z (Z.of_nat A) /\ / inject_Z (Z.of_nat A) <= 1.
Proof.
  pose proof inject_A_pos as Hpos.
  assert (Hge : 1 <= inject_Z (Z.of_nat A)).
  { change 1 with (inject_Z 1). rewrite <- Zle_Qle. lia. }
  assert (Hinv : 0 < / inject_Z (Z.of_nat A)) by (by apply Qinv_lt_0_compat).
  split; [exact Hinv|].
  assert (Hone : inject_Z (Z.of_nat A) * / inject_Z (Z.of_nat A) == 1).
  { apply Qmult_inv_r. lra. }
  nra.
Qed.

Lemma explore_le_greedy : explore <= greedy.
Proof. unfold greedy_prob, explore_prob. lra. Qed.

Lemma explore_nonneg : 0 <= explore.
Proof.
  unfold explore_prob, Qdiv. destruct inv_A_bounds as [Hinv _]. nra.
Qed.

Lemma Qsum_derived_row b : (b < A)%nat -> Qsum (derived_row b) == 1.
Proof.
  intros Hb. unfold derived_row. rewrite Qsum_entries.
  rewrite decide_True by lia. unfold greedy_prob, explore_prob.
  pose proof inject_A_pos. field. lra.
Qed.

Lemma policy_row_derived b : (b < A)%nat -> policy_row (derived_row b).
Proof.
  intros Hb. split; [apply length_derived_row|].
  split; [|by apply Qsum_derived_row].
  unfold derived_row. apply Forall_fmap, Forall_forall. intros a _. simpl.
  pose proof explore_le_greedy. unfold policy_entry.
  destruct (a =? b)%nat; lra.
Qed.

Lemma Qsum_replicate (n : nat) (x : Q) :
  Qsum (replicate n x) == inject_Z (Z.of_nat n) * x.
Proof.
  induction n as [|n IH].
  - simpl. ring.
  - change (Qsum (replicate (S n) x)) with (x + Qsum (replicate n x)).
    rewrite IH, Nat2Z.inj_succ. unfold Z.succ. rewrite inject_Z_plus. ring.
Qed.

Lemma policy_row_uniform : policy_row uniform_row.
Proof.
  pose proof inject_A_pos as Hpos. destruct inv_A_bounds as [Hinv Hle].
  unfold uniform_row. split; [apply length_replicate|]. split.
  - apply Forall_replicate. unfold greedy_prob, explore_prob, Qdiv.
    split; nra.
  - rewrite Qsum_replicate. field. lra.
Qed.

Lemma policy_row_pvals_ok (r : list Q) : policy_row r -> pvals_ok r = true.
Proof.
  intros (_ & Hall & Hsum). unfold pvals_ok. apply andb_true_iff. split.
  - apply forallb_forall. intros x Hx. apply Qle_bool_iff.
    rewrite Forall_forall in Hall. apply list_elem_of_In in Hx.
    destruct (Hall x Hx). pose proof explore_nonneg. lra.
  - by apply Qeq_bool_iff.
Qed.

End Bounds.

End PolicyRows.

(** ** The loop body *)

Section Loop.

Context {G : Type} `{RandomSource G}.
Variable E : Environment.
Variables alpha epsilon gamma : Q.

Abbreviation S_ := (num_states E).
Abbreviation A_ := (num_actions E).

(** The environment keeps its promise on the observation space. *)
Definition env_ok : Prop :=
  (forall e, ((env_reset E e).1 < S_)%nat) /\
  (forall a e, ((env_step E a e).1.1.1 < S_)%nat).

Definition policy_table (pi0 : table) : Prop :=
  length pi0 = S_ /\ Forall (policy_row E epsilon) pi0.

Definition tables_ok (Q0 pi0 : table) : Prop :=
  table_dims S_ A_ Q0 /\ policy_table pi0.

Definition wf_locals (l : locals (env_t E)) : Prop :=
  tables_ok (Qtab l) (pi l) /\ (state l < S_)%nat /\ (action l < A_)%nat.

Lemma policy_table_lookup pi0 s :
  policy_table pi0 -> (s < S_)%nat ->
  exists r, pi0 !! s = Some r /\ policy_row E epsilon r.
Proof.
  intros [Hlen Hrows] Hs. rewrite <- Hlen in Hs.
  destruct (lookup_lt_is_Some_2 pi0 s Hs) as [r Hr]. exists r. split; [done|].
  eapply Forall_lookup_1 in Hrows; eauto.
Qed.

Lemma policy_table_insert pi0 s r :
  policy_table pi0 -> policy_row E epsilon r -> policy_table (<[s := r]> pi0).
Proof.
  intros [Hlen Hrows] Hr. split; [by rewrite length_insert|].
  by apply Forall_insert.
Qed.

Lemma update_Q_Ret_inv Q0 s a r ns na Q1 :
  update_Q alpha gamma Q0 s a r ns na = Ret Q1 ->
  exists q_next q_old,
    get2 Q0 ns na = Ret q_next /\ get2 Q0 s a = Ret q_old /\
    set2 Q0 s a (sarsa_update alpha q_old (r + gamma * q_next)) = Ret Q1.
Proof.
  unfold update_Q. intros Hu.
  apply obind_Ret_inv in Hu as (q_next & Hn & Hu).
  apply obind_Ret_inv in Hu as (q_old & Ho & Hu).
  by exists q_next, q_old.
Qed.

Lemma update_Q_total Q0 s a r ns na :
  table_dims S_ A_ Q0 ->
  (s < S_)%nat -> (a < A_)%nat -> (ns < S_)%nat -> (na < A_)%nat ->
  exists Q1, update_Q alpha gamma Q0 s a r ns na = Ret Q1 /\
             table_dims S_ A_ Q1.
Proof.
  intros Hd Hs Ha Hns Hna.
  destruct (table_dims_lookup _ _ _ ns Hd Hns) as (rn & Hrn & Hln).
  destruct (table_dims_lookup _ _ _ s Hd Hs) as (rs & Hrs & Hls).
  rewrite <- Hln in Hna. rewrite <- Hls in Ha.
  destruct (lookup_lt_is_Some_2 rn na Hna) as [q_next Hqn].
  destruct (lookup_lt_is_Some_2 rs a Ha) as [q_old Hqo].
  unfold update_Q.
  rewrite (proj2 (get2_Ret Q0 ns na q_next)) by eauto. simpl.
  rewrite (proj2 (get2_Ret Q0 s a q_old)) by eauto. simpl.
  eexists. split.
  - apply set2_Ret. exists rs. split; [done|]. split; [done|reflexivity].
  - apply table_dims_insert; [done|]. by rewrite length_insert.
Qed.

Lemma update_policy_Ret_inv Q0 pi0 s pi1 (w w' : world G) :
  update_policy E epsilon Q0 pi0 s w = (Ret pi1, w') ->
  exists qrow bs i b,
    Q0 !! s = Some qrow /\ best_actions_of qrow = Ret bs /\
    draw_uniform (length bs) (rng w) = (i, rng w') /\ bs !! i = Some b /\
    log w' = log w /\
    assign_policy E epsilon pi0 s b (seq 0 A_) = Ret pi1.
Proof.
  unfold update_policy. intros Hu. inv_run.
  match goal with Hc : np_random_choice _ _ = _ |- _ =>
    apply np_random_choice_inv in Hc as (i & Hdraw & Hi & Hlog) end.
  match goal with Hg : get_row _ _ = _ |- _ =>
    unfold get_row in Hg; destruct (Q0 !! s) as [qrow|] eqn:Hq;
      [injection Hg as <- | discriminate] end.
  eexists qrow, _, i, _. repeat split; eauto.
Qed.

(** The derivation of one policy row, run on tables of the right shape. *)
Lemma update_policy_total Q0 pi0 s (w : world G) :
  (0 < A_)%nat -> table_dims S_ A_ Q0 -> table_dims S_ A_ pi0 ->
  (s < S_)%nat ->
  exists qrow bs i g b,
    Q0 !! s = Some qrow /\ best_actions_of qrow = Ret bs /\
    draw_uniform (length bs) (rng w) = (i, g) /\ bs !! i = Some b /\
    (b < A_)%nat /\
    update_policy E epsilon Q0 pi0 s w
    = (Ret (<[s := derived_row E epsilon b]> pi0), World g (log w)).
Proof.
  intros HA HQ Hpi Hs.
  destruct (table_dims_lookup _ _ _ s HQ Hs) as (qrow & Hq & Hlq).
  destruct (table_dims_lookup _ _ _ s Hpi Hs) as (prow & Hp & Hlp).
  assert (Hne : qrow <> []) by (intros ->; simpl in Hlq; lia).
  destruct (best_actions_of_total qrow Hne) as [bs Hbs].
  destruct (best_actions_of_spec qrow bs Hbs) as (Hbne & _ & Hmem).
  destruct (np_random_choice_total bs w Hbne) as (i & g & b & Hd & Hi & Hc).
  assert (Hb : (b < A_)%nat).
  { assert (Hin : b ∈ bs) by (by eapply list_elem_of_lookup_2).
    apply Hmem in Hin as (x & Hx & _). apply lookup_lt_Some in Hx. lia. }
  exists qrow, bs, i, g, b. repeat split; try done.
  unfold update_policy, get_row. rewrite Hq.
  rewrite (bind_Ret_intro (lift (Ret qrow)) _ w qrow w eq_refl).
  rewrite (bind_Ret_intro (lift (best_actions_of qrow)) _ w bs w)
    by (by rewrite Hbs).
  rewrite (bind_Ret_intro _ _ w b _ Hc).
  unfold lift. by rewrite (assign_policy_all E epsilon pi0 s b prow).
Qed.

Lemma loop_body_Ret_inv l (w : world G) l' w' ns r d e' :
  env_step E (action l) (env l) = (ns, r, d, e') ->
  loop_body E alpha epsilon gamma l w = (Ret l', w') ->
  exists p g1,
    pi l !! state l = Some p /\
    draw_weighted p (rng w) = (action l', g1) /\
    update_Q alpha gamma (Qtab l) (state l) (action l) r ns (action l')
    = Ret (Qtab l') /\
    update_policy E epsilon (Qtab l') (pi l) (state l)
                  (World g1 (log w ++ [EvEnvStep (action l)]))
    = (Ret (pi l'), w') /\
    env l' = e' /\ state l' = ns /\ done l' = d /\
    episode_length l' = S (episode_length l) /\
    episode_return l' = episode_return l + r.
Proof.
  intros Hstep. unfold loop_body. rewrite Hstep. intros Hb. inv_run.
  match goal with Hc : np_random_choice_p _ _ _ = _ |- _ =>
    apply np_random_choice_p_inv in Hc as (_ & _ & _ & Hdraw & Hlog) end.
  match goal with Hg : get_row _ _ = _ |- _ =>
    unfold get_row in Hg; destruct (pi l !! state l) as [p|] eqn:Hp;
      [injection Hg as <- | discriminate] end.
  simpl in *.
  match goal with Hu : update_policy _ _ _ _ _ ?w1 = _ |- _ =>
    destruct w1 as [g1 lg1]; simpl in *; subst lg1 end.
  exists p, g1. repeat split; eauto.
Qed.

End Loop.

Section LoopTotal.

Context {G : Type} `{RandomSource G}.
Variable E : Environment.
Variables alpha epsilon gamma : Q.

Hypothesis epsilon_range : 0 <= epsilon <= 1.
Hypothesis actions_pos : (0 < num_actions E)%nat.

Lemma policy_table_dims pi0 :
  policy_table E epsilon pi0 -> table_dims (num_states E) (num_actions E) pi0.
Proof.
  intros [Hlen Hrows]. split; [done|].
  eapply Forall_impl; [exact Hrows|]. by intros r [Hr _].
Qed.

(** On well-formed locals an iteration always completes, and it leaves
    well-formed locals. *)
Lemma loop_body_total l (w : world G) ns r d e' :
  env_ok E -> wf_locals E epsilon l ->
  env_step E (action l) (env l) = (ns, r, d, e') ->
  exists l' w',
    loop_body E alpha epsilon gamma l w = (Ret l', w') /\
    wf_locals E epsilon l'.
Proof.
  intros [_ Hstep_ok] ([HQ Hpi] & Hs & Ha) Hstep.
  assert (Hns : (ns < num_states E)%nat).
  { specialize (Hstep_ok (action l) (env l)). by rewrite Hstep in Hstep_ok. }
  destruct (policy_table_lookup E epsilon _ _ Hpi Hs) as (p & Hp & Hrow).
  pose proof (policy_row_pvals_ok E epsilon epsilon_range actions_pos p Hrow)
    as Hok.
  destruct Hrow as (Hlp & _).
  destruct (np_random_choice_p_total (num_actions E) p
              (World (rng w) (log w ++ [EvEnvStep (action l)]))
              actions_pos Hlp Hok) as (na & g1 & Hdraw & Hna & Hc).
  destruct (update_Q_total E alpha gamma (Qtab l) (state l) (action l) r ns na
              HQ Hs Ha Hns Hna) as (Q1 & HuQ & HQ1).
  destruct (update_policy_total E epsilon Q1 (pi l) (state l)
              (World g1 (log w ++ [EvEnvStep (action l)]))
              actions_pos HQ1 (policy_table_dims _ Hpi) Hs)
    as (qrow & bs & i & g2 & b & _ & _ & _ & _ & Hb & Hup).
  eexists _, _. split.
  - unfold loop_body.
    rewrite (bind_Ret_intro (emit _) _ w tt _ eq_refl). rewrite Hstep.
    unfold get_row. rewrite Hp.
    rewrite (bind_Ret_intro (lift (Ret p)) _ _ p _ eq_refl).
    rewrite (bind_Ret_intro _ _ _ na _ Hc).
    rewrite (bind_Ret_intro (lift _) _ _ Q1 _)
      by (unfold lift; by rewrite HuQ).
    rewrite (bind_Ret_intro _ _ _ _ _ Hup). reflexivity.
  - split; [split|]; simpl; [done| |done].
    apply policy_table_insert; [done|].
    by apply policy_row_derived.
Qed.

End LoopTotal.

(** ** What one iteration does *)

Section Iteration.

Context {G : Type} `{RandomSource G}.
Variable E : Environment.
Variables alpha epsilon gamma : Q.

(** C1.  On well-formed locals an iteration of the loop completes and
    applies the SARSA rule: with [q_old = Q[state, action]] and
    [q_next = Q[next_state, next_action]] read from the table before the
    iteration, the table after it holds
    [q_old + alpha * ((reward + gamma * q_next) - q_old)] at
    [(state, action)] and is unchanged everywhere else. *)
Theorem loop_body_applies_sarsa_rule l (w : world G) ns r d e' :
  0 <= epsilon <= 1 -> (0 < num_actions E)%nat ->
  env_ok E -> wf_locals E epsilon l ->
  env_step E (action l) (env l) = (ns, r, d, e') ->
  exists l' w' q_old q_next,
    loop_body E alpha epsilon gamma l w = (Ret l', w') /\
    state l' = ns /\
    get2 (Qtab l) (state l) (action l) = Ret q_old /\
    get2 (Qtab l) (state l') (action l') = Ret q_next /\
    get2 (Qtab l') (state l) (action l)
    = Ret (q_old + alpha * ((r + gamma * q_next) - q_old)) /\
    forall s a, (s, a) <> (state l, action l) ->
                get2 (Qtab l') s a = get2 (Qtab l) s a.
Proof.
  intros Heps HA Henv Hwf Hstep.
  destruct (loop_body_total E alpha epsilon gamma Heps HA l w ns r d e'
              Henv Hwf Hstep) as (l' & w' & Hbody & _).
  destruct (loop_body_Ret_inv E alpha epsilon gamma l w l' w' ns r d e'
              Hstep Hbody)
    as (p & g1 & _ & _ & HuQ & _ & _ & Hns & _).
  apply update_Q_Ret_inv in HuQ as (q_next & q_old & Hqn & Hqo & Hset).
  exists l', w', q_old, q_next. rewrite Hns.
  split; [done|]. split; [done|]. split; [done|]. split; [done|]. split.
  - by apply (get2_set2_eq _ _ _ _ _ Hset).
  - intros s a Hne. by apply (get2_set2_ne _ _ _ _ _ _ _ Hset).
Qed.

(** C2.  The next action of an iteration is the weighted draw from the
    policy row of [state], the state the environment step leaves; the new
    current state is the one the step returned. *)
Theorem next_action_drawn_from_current_state l (w : world G) l' w' ns r d e' :
  env_step E (action l) (env l) = (ns, r, d, e') ->
  loop_body E alpha epsilon gamma l w = (Ret l', w') ->
  exists p, pi l !! state l = Some p /\
            action l' = (draw_weighted p (rng w)).1 /\
            state l' = ns.
Proof.
  intros Hstep Hbody.
  destruct (loop_body_Ret_inv E alpha epsilon gamma l w l' w' ns r d e'
              Hstep Hbody)
    as (p & g1 & Hp & Hdraw & _ & _ & _ & Hns & _).
  exists p. rewrite Hdraw. done.
Qed.

Lemma assign_policy_frame pi0 pi1 s b acts s' :
  assign_policy E epsilon pi0 s b acts = Ret pi1 -> s' <> s ->
  pi1 !! s' = pi0 !! s'.
Proof.
  revert pi0. induction acts as [|a acts IH]; intros pi0; simpl.
  - by intros [= ->].
  - intros Hb Hne. apply obind_Ret_inv in Hb as (pi' & Hset & Hrest).
    rewrite (IH _ Hrest Hne). by apply (set2_row_ne _ _ _ _ _ _ Hset).
Qed.

Lemma update_policy_frame Q0 pi0 s pi1 (w w' : world G) s' :
  update_policy E epsilon Q0 pi0 s w = (Ret pi1, w') -> s' <> s ->
  pi1 !! s' = pi0 !! s'.
Proof.
  intros Hu Hne.
  apply update_policy_Ret_inv in Hu as (? & ? & ? & b & _ & _ & _ & _ & _ & Ha).
  by apply (assign_policy_frame _ _ _ _ _ _ Ha).
Qed.

Lemma loop_body_frame l (w : world G) l' w' s' :
  loop_body E alpha epsilon gamma l w = (Ret l', w') -> s' <> state l ->
  pi l' !! s' = pi l !! s' /\ Qtab l' !! s' = Qtab l !! s'.
Proof.
  intros Hbody Hne.
  destruct (env_step E (action l) (env l)) as [[[ns r] d] e'] eqn:Hstep.
  destruct (loop_body_Ret_inv E alpha epsilon gamma l w l' w' ns r d e'
              Hstep Hbody)
    as (p & g1 & _ & _ & HuQ & Hup & _).
  split.
  - by apply (update_policy_frame _ _ _ _ _ _ _ Hup).
  - apply update_Q_Ret_inv in HuQ as (? & ? & _ & _ & Hset).
    by apply (set2_row_ne _ _ _ _ _ _ Hset).
Qed.

(** C7.  An iteration rewrites one row of each table, the row of the state
    it leaves: every other row of the policy table, and of the Q-table, is
    the row it was before. *)
Theorem loop_body_touches_one_row l (w : world G) l' w' :
  loop_body E alpha epsilon gamma l w = (Ret l', w') ->
  forall s', s' <> state l ->
    pi l' !! s' = pi l !! s' /\ Qtab l' !! s' = Qtab l !! s'.
Proof.
  intros Hbody s' Hne. by apply (loop_body_frame l w l' w' s').
Qed.

End Iteration.

(** ** The fixture is well formed *)

Lemma fixture_env_ok : env_ok fixture.
Proof.
  split.
  - intros e. simpl. unfold num_states. simpl. lia.
  - intros a e. unfold num_states. simpl.
    destruct e as [|e]; destruct a as [|a]; simpl; lia.
Defined.

(** The locals at the start of the first episode of the scenario. *)
Definition fixture_start : locals nat :=
  Locals O [[0; 0]; [0; 0]] [[1#2; 1#2]; [1#2; 1#2]] O O false O 0.

Lemma fixture_start_wf : wf_locals fixture (1#10) fixture_start.
Proof.
  split; [split|split]; simpl.
  - split; [reflexivity | repeat constructor].
  - split; [reflexivity|].
    repeat constructor; vm_compute; intuition discriminate.
  - unfold num_states. simpl. lia.
  - unfold num_actions. simpl. lia.
Defined.

Lemma loop_body_applies_sarsa_rule_witness :
  exists l' w' q_old q_next,
    @loop_body _ (scripted no_script) fixture (1#2) (1#10) 1
               fixture_start (World [] []) = (Ret l', w') /\
    state l' = 1%nat /\
    get2 [[0; 0]; [0; 0]] 0 0 = Ret q_old /\
    get2 [[0; 0]; [0; 0]] (state l') (action l') = Ret q_next /\
    get2 (Qtab l') 0 0 = Ret (q_old + (1#2) * ((1 + 1 * q_next) - q_old)) /\
    forall s a, (s, a) <> (O, O) ->
                get2 (Qtab l') s a = get2 [[0; 0]; [0; 0]] s a.
Proof.
  apply (@loop_body_applies_sarsa_rule _ (scripted no_script) fixture
           (1#2) (1#10) 1 fixture_start (World [] [])
           1%nat 1 true 1%nat).
  - vm_compute. intuition discriminate.
  - unfold num_actions. simpl. lia.
  - exact fixture_env_ok.
  - exact fixture_start_wf.
  - reflexivity.
Defined.

(** The locals after the first iteration of the scenario. *)
Definition fixture_after : locals nat :=
  Locals 1%nat [[0 + (1#2) * (1 + 1 * 0 - 0); 0]; [0; 0]]
         [[1 - (1#10) + (1#10) / inject_Z 2; (1#10) / inject_Z 2];
          [1#2; 1#2]]
         1%nat O true 1%nat (0 + 1).

Lemma fixture_first_iteration :
  @loop_body _ (scripted no_script) fixture (1#2) (1#10) 1
             fixture_start (World [] [])
  = (Ret fixture_after, World [] [EvEnvStep 0]).
Proof. reflexivity. Defined.

Lemma next_action_drawn_from_current_state_witness :
  exists p, [[1#2; 1#2]; [1#2; 1#2]] !! O = Some p /\
            action fixture_after = (scripted_weighted p []).1 /\
            state fixture_after = 1%nat.
Proof.
  apply (@next_action_drawn_from_current_state _ (scripted no_script) fixture
           (1#2) (1#10) 1 fixture_start (World [] [])
           fixture_after (World [] [EvEnvStep 0]) 1%nat 1 true 1%nat).
  - reflexivity.
  - exact fixture_first_iteration.
Defined.

Lemma loop_body_touches_one_row_witness :
  pi fixture_after !! 1%nat = [[1#2; 1#2]; [1#2; 1#2]] !! 1%nat /\
  Qtab fixture_after !! 1%nat = [[0; 0]; [0; 0]] !! 1%nat.
Proof.
  apply (@loop_body_touches_one_row _ (scripted no_script) fixture
           (1#2) (1#10) 1 fixture_start (World [] [])
           fixture_after (World [] [EvEnvStep 0])
           fixture_first_iteration 1%nat).
  simpl. lia.
Defined.

(** ** Deriving a policy row *)

Section Derivation.

Context {G : Type} `{RandomSource G}.
Variable E : Environment.
Variable epsilon : Q.

(** C3.  The derivation of the row of state [s] reads the row [qrow] of the
    Q-table, forms the list [bs] of the actions attaining its maximum (each
    exactly once), takes a uniform draw [i] below the length of [bs], and
    makes [b = bs[i]] the greedy action: whatever the random source answers,
    [b] attains the maximum.  The new policy row gives
    [1 - epsilon + epsilon/A] to [b] and [epsilon/A] to every other
    action. *)
Theorem update_policy_epsilon_greedy Q0 pi0 s (w : world G) :
  (0 < num_actions E)%nat ->
  table_dims (num_states E) (num_actions E) Q0 ->
  table_dims (num_states E) (num_actions E) pi0 ->
  (s < num_states E)%nat ->
  exists qrow bs i g b pi1 row,
    Q0 !! s = Some qrow /\ best_actions_of qrow = Ret bs /\
    NoDup bs /\ (forall a, a ∈ bs <-> argmax qrow a) /\
    draw_uniform (length bs) (rng w) = (i, g) /\ bs !! i = Some b /\
    argmax qrow b /\
    update_policy E epsilon Q0 pi0 s w = (Ret pi1, World g (log w)) /\
    pi1 !! s = Some row /\ length row = num_actions E /\
    forall a, (a < num_actions E)%nat ->
      row !! a = Some (if (a =? b)%nat
                       then 1 - epsilon
                            + epsilon / inject_Z (Z.of_nat (num_actions E))
                       else epsilon / inject_Z (Z.of_nat (num_actions E))).
Proof.
  intros HA HQ Hpi Hs.
  destruct (update_policy_total E epsilon Q0 pi0 s w HA HQ Hpi Hs)
    as (qrow & bs & i & g & b & Hq & Hbs & Hd & Hi & Hb & Hup).
  destruct (best_actions_of_spec qrow bs Hbs) as (_ & Hnd & Hmem).
  exists qrow, bs, i, g, b, (<[s := derived_row E epsilon b]> pi0),
         (derived_row E epsilon b).
  repeat split; try done.
  - by apply Hmem.
  - by apply Hmem.
  - apply Hmem. by eapply list_elem_of_lookup_2.
  - apply list_lookup_insert_eq. destruct Hpi as [-> _]. done.
  - apply length_derived_row.
  - intros a Ha. by rewrite lookup_derived_row.
Qed.

End Derivation.

(** A forced tie: both actions of state 0 hold the same value. *)
Lemma update_policy_epsilon_greedy_witness :
  exists qrow bs i g b pi1 row,
    [[1#3; 1#3]; [0; 0]] !! O = Some qrow /\ best_actions_of qrow = Ret bs /\
    NoDup bs /\ (forall a, a ∈ bs <-> argmax qrow a) /\
    scripted_uniform (length bs) [1%nat] = (i, g) /\ bs !! i = Some b /\
    argmax qrow b /\
    @update_policy _ (scripted no_script) fixture (1#10)
                   [[1#3; 1#3]; [0; 0]] [[1#2; 1#2]; [1#2; 1#2]] O
                   (World [1%nat] [])
    = (Ret pi1, World g []) /\
    pi1 !! O = Some row /\ length row = 2%nat /\
    forall a, (a < 2)%nat ->
      row !! a = Some (if (a =? b)%nat
                       then 1 - (1#10) + (1#10) / inject_Z (Z.of_nat 2)
                       else (1#10) / inject_Z (Z.of_nat 2)).
Proof.
  apply (@update_policy_epsilon_greedy _ (scripted no_script) fixture (1#10)
           [[1#3; 1#3]; [0; 0]] [[1#2; 1#2]; [1#2; 1#2]] O
           (World [1%nat] [])).
  - unfold num_actions. simpl. lia.
  - split; [reflexivity | repeat constructor].
  - split; [reflexivity | repeat constructor].
  - unfold num_states. simpl. lia.
Defined.

(** In the forced tie the script decides: draw 1 makes action 1 greedy. *)
Example forced_tie_draw_1 :
  @update_policy _ (scripted no_script) fixture (1#10)
                 [[1#3; 1#3]; [0; 0]] [[1#2; 1#2]; [1#2; 1#2]] O
                 (World [1%nat] [])
  = (Ret [[(1#10) / inject_Z 2; 1 - (1#10) + (1#10) / inject_Z 2];
          [1#2; 1#2]], World [] []).
Proof. reflexivity. Qed.

(** ** The points of a run *)

Section Run.

Context {G : Type} `{RandomSource G}.
Variable E : Environment.
Variables alpha epsilon gamma : Q.

(** [run_from Q0 pi0 V l]: the locals [l] are reached from the tables [Q0]
    and [pi0] by starting episodes and iterating the loop body; [V] lists
    the states whose Q-table row an iteration has updated, latest first. *)
Inductive run_from (Q0 pi0 : table)
    : list nat -> locals (env_t E) -> Prop :=
| run_first env0 (w w' : world G) l :
    episode_init E env0 Q0 pi0 w = (Ret l, w') ->
    run_from Q0 pi0 [] l
| run_iteration V l (w w' : world G) l' :
    run_from Q0 pi0 V l -> done l = false ->
    loop_body E alpha epsilon gamma l w = (Ret l', w') ->
    run_from Q0 pi0 (state l :: V) l'
| run_next_episode V l (w w' : world G) l' :
    run_from Q0 pi0 V l -> done l = true ->
    episode_init E (env l) (Qtab l) (pi l) w = (Ret l', w') ->
    run_from Q0 pi0 V l'.

Lemma episode_init_Ret_inv env0 Q0 pi0 (w w' : world G) l :
  episode_init E env0 Q0 pi0 w = (Ret l, w') ->
  Qtab l = Q0 /\ pi l = pi0 /\ done l = false /\
  episode_length l = O /\ episode_return l = 0 /\
  state l = (env_reset E env0).1 /\ env l = (env_reset E env0).2 /\
  log w' = log w ++ [EvEnvReset] /\
  exists p, pi0 !! state l = Some p /\ action l = (draw_weighted p (rng w)).1.
Proof.
  unfold episode_init. destruct (env_reset E env0) as [s env1].
  intros Hb. inv_run.
  match goal with Hc : np_random_choice_p _ _ _ = _ |- _ =>
    apply np_random_choice_p_inv in Hc as (_ & _ & _ & Hdraw & Hlog) end.
  match goal with Hg : get_row _ _ = _ |- _ =>
    unfold get_row in Hg; destruct (pi0 !! s) as [p|] eqn:Hp;
      [injection Hg as <- | discriminate] end.
  simpl in *. repeat split; try done.
  exists p. by rewrite Hdraw.
Qed.

Section Invariant.

Hypothesis epsilon_range : 0 <= epsilon <= 1.
Hypothesis actions_pos : (0 < num_actions E)%nat.

Lemma loop_body_preserves_tables l (w w' : world G) l' :
  tables_ok E epsilon (Qtab l) (pi l) ->
  loop_body E alpha epsilon gamma l w = (Ret l', w') ->
  tables_ok E epsilon (Qtab l') (pi l').
Proof.
  intros [HQ Hpi] Hbody.
  destruct (env_step E (action l) (env l)) as [[[ns r] d] e'] eqn:Hstep.
  destruct (loop_body_Ret_inv E alpha epsilon gamma l w l' w' ns r d e'
              Hstep Hbody)
    as (p & g1 & Hp & _ & HuQ & Hup & _).
  apply update_Q_Ret_inv in HuQ as (qn & qo & _ & _ & Hset).
  assert (HQ' : table_dims (num_states E) (num_actions E) (Qtab l'))
    by (by eapply set2_dims).
  split; [exact HQ'|].
  apply update_policy_Ret_inv in Hup
    as (qrow & bs & i & b & Hq & Hbs & _ & Hi & _ & Ha).
  assert (Hb : (b < num_actions E)%nat).
  { destruct (best_actions_of_spec qrow bs Hbs) as (_ & _ & Hmem).
    assert (Hin : b ∈ bs) by (by eapply list_elem_of_lookup_2).
    apply Hmem in Hin as (qb & Hqb & _). apply lookup_lt_Some in Hqb.
    destruct HQ' as [_ Hrows]. eapply Forall_lookup_1 in Hrows; eauto.
    simpl in Hrows. lia. }
  assert (Hlp : length p = num_actions E).
  { destruct Hpi as [_ Hrows]. eapply Forall_lookup_1 in Hrows; eauto.
    by destruct Hrows. }
  rewrite (assign_policy_all E epsilon (pi l) (state l) b p Hp Hlp) in Ha.
  injection Ha as <-. apply policy_table_insert; [done|].
  by apply policy_row_derived.
Qed.

(** Along a run the tables keep their shape, every policy row stays a
    probability row, and the rows of the states outside [V] are the initial
    ones. *)
Lemma run_from_invariant Q0 pi0 V l :
  tables_ok E epsilon Q0 pi0 -> run_from Q0 pi0 V l ->
  tables_ok E epsilon (Qtab l) (pi l) /\
  forall s, s ∉ V -> pi l !! s = pi0 !! s /\ Qtab l !! s = Q0 !! s.
Proof.
  intros H0 Hrun. induction Hrun as
    [env0 w w' l Hinit | V l w w' l' Hrun IH Hd Hbody
     | V l w w' l' Hrun IH Hd Hinit].
  - apply episode_init_Ret_inv in Hinit as (-> & -> & _). done.
  - destruct IH as [Hok Hframe]. split.
    + by eapply loop_body_preserves_tables.
    + intros s Hs. apply not_elem_of_cons in Hs as [Hne HV].
      destruct (loop_body_frame E alpha epsilon gamma l w l' w' s Hbody Hne)
        as [-> ->].
      by apply Hframe.
  - apply episode_init_Ret_inv in Hinit as (-> & -> & _). exact IH.
Qed.

End Invariant.

End Run.

Section RunOfSarsa.

Context {G : Type} `{RandomSource G}.
Variable E : Environment.
Variables alpha epsilon gamma : Q.

Abbreviation run := (run_from E alpha epsilon gamma).

Lemma while_loop_run Q0 pi0 fuel V l (w w' : world G) l' :
  run Q0 pi0 V l ->
  while_loop E alpha epsilon gamma fuel l w = (Ret l', w') ->
  exists V', run Q0 pi0 V' l' /\ done l' = true.
Proof.
  revert V l w. induction fuel as [|fuel IH]; intros V l w Hrun; simpl;
    destruct (done l) eqn:Hd; intros Hw.
  - inv_run. eauto.
  - discriminate.
  - inv_run. eauto.
  - apply bind_Ret_inv in Hw as (l1 & w1 & Hbody & Hrest).
    eapply IH; [|exact Hrest]. eapply run_iteration; eauto.
Qed.

Lemma episode_Ret_inv fuel i env0 Q0 pi0 (w w' : world G) l :
  episode E alpha epsilon gamma fuel i env0 Q0 pi0 w = (Ret l, w') ->
  exists l0 w0 w1,
    episode_init E env0 Q0 pi0 w = (Ret l0, w0) /\
    while_loop E alpha epsilon gamma fuel l0 w0 = (Ret l, w1) /\
    rng w' = rng w1 /\
    log w' = log w1 ++
      [EvScalar "episode_length" (inject_Z (Z.of_nat (episode_length l))) i;
       EvScalar "episode_return" (episode_return l) i].
Proof.
  unfold episode, episode_summary. intros Hb. inv_run.
  eexists _, _, _. split; [eassumption|]. split; [eassumption|].
  simpl. by rewrite <- app_assoc.
Qed.

Lemma main_loop_run Q0 pi0 fuel episodes V l (w w' : world G) env1 Q1 pi1 :
  run Q0 pi0 V l -> done l = true ->
  main_loop E alpha epsilon gamma fuel episodes (env l) (Qtab l) (pi l) w
  = (Ret (env1, Q1, pi1), w') ->
  exists V' l', run Q0 pi0 V' l' /\ Qtab l' = Q1 /\ pi l' = pi1.
Proof.
  revert V l w. induction episodes as [|i episodes IH]; intros V l w Hrun Hd;
    simpl; intros Hm.
  - unfold ret in Hm. injection Hm as _ <- <- _. eauto.
  - apply bind_Ret_inv in Hm as (l1 & w1 & Hep & Hrest).
    apply episode_Ret_inv in Hep as (l0 & w0 & w2 & Hinit & Hw & _).
    assert (Hrun0 : run Q0 pi0 V l0) by (eapply run_next_episode; eauto).
    destruct (while_loop_run _ _ _ _ _ _ _ _ Hrun0 Hw) as (V1 & Hrun1 & Hd1).
    eapply IH; eauto.
Qed.

(** The tables a completed call of [sarsa] ends with are tables of a point
    of the run that starts from the initial tables. *)
Lemma sarsa_result_reachable fuel num_episodes seed (w w' : world G) Q1 pi1 :
  sarsa E alpha epsilon gamma fuel num_episodes seed w = (Ret (Q1, pi1), w') ->
  0 <= epsilon <= 1 /\
  exists pi0 V l,
    initial_pi E = Ret pi0 /\ run (initial_Q E) pi0 V l /\
    Qtab l = Q1 /\ pi l = pi1.
Proof.
  unfold sarsa. intros Hs. apply bind_Ret_inv in Hs as ([] & w0 & Hv & Hs).
  apply lift_Ret_inv in Hv as [Hv ->].
  apply validate_Ret_iff in Hv as (_ & Heps & _ & Hn). split; [exact Heps|].
  unfold sarsa_run in Hs.
  apply bind_Ret_inv in Hs as (? & wa & _ & Hs).
  apply bind_Ret_inv in Hs as (? & wb & _ & Hs).
  apply bind_Ret_inv in Hs as (? & wc & _ & Hs).
  apply bind_Ret_inv in Hs as (? & wd & _ & Hs).
  apply bind_Ret_inv in Hs as (pi0 & we & Hpi0 & Hs).
  apply lift_Ret_inv in Hpi0 as [Hpi0 ->].
  apply bind_Ret_inv in Hs as ([[env1 Q2] pi2] & wf & Hmain & Hs).
  inv_run.
  destruct (Z.to_nat num_episodes) as [|n] eqn:Hnat; [lia|].
  simpl in Hmain. apply bind_Ret_inv in Hmain as (l1 & w1 & Hep & Hrest).
  apply episode_Ret_inv in Hep as (l0 & w2 & w3 & Hinit & Hw & _).
  exists pi0.
  assert (Hrun0 : run (initial_Q E) pi0 [] l0) by (eapply run_first; eauto).
  destruct (while_loop_run _ _ _ _ _ _ _ _ Hrun0 Hw) as (V1 & Hrun1 & Hd1).
  destruct (main_loop_run _ _ _ _ _ _ _ _ _ _ _ Hrun1 Hd1 Hrest)
    as (V' & l' & Hrun' & HQ & Hpi).
  exists V', l'. done.
Qed.

(** C4.  At every point of a run from the initial tables (the start of an
    episode and the end of each loop iteration), every policy row
    sums to one and has its entries between [epsilon/A] and
    [1 - epsilon + epsilon/A]; the row of a state whose Q-table row no
    iteration has updated is the initial uniform row, [1/A] at every
    action. *)
Theorem policy_rows_invariant pi0 V l :
  0 <= epsilon <= 1 -> initial_pi E = Ret pi0 ->
  run (initial_Q E) pi0 V l ->
  forall s, (s < num_states E)%nat ->
    exists row,
      pi l !! s = Some row /\ Qsum row == 1 /\
      Forall (fun x =>
                epsilon / inject_Z (Z.of_nat (num_actions E)) <= x /\
                x <= 1 - epsilon
                     + epsilon / inject_Z (Z.of_nat (num_actions E))) row /\
      (s ∉ V ->
       row = replicate (num_actions E)
                       (1 / inject_Z (Z.of_nat (num_actions E)))).
Proof.
  intros Heps Hinit Hrun s Hs. unfold initial_pi in Hinit.
  destruct (Nat.eqb_spec (num_actions E) 0) as [|HA]; [discriminate|].
  injection Hinit as <-.
  assert (HApos : (0 < num_actions E)%nat) by lia.
  assert (H0 : tables_ok E epsilon (initial_Q E)
                 (replicate (num_states E) (uniform_row E))).
  { split; [apply table_dims_replicate|]. split; [apply length_replicate|].
    apply Forall_replicate. by apply policy_row_uniform. }
  destruct (run_from_invariant E alpha epsilon gamma Heps HApos _ _ _ _ H0 Hrun)
    as [[_ Hpi] Hframe].
  destruct (policy_table_lookup E epsilon _ _ Hpi Hs)
    as (row & Hrow & _ & Hall & Hsum).
  exists row. split; [done|]. split; [done|]. split; [exact Hall|].
  intros HV. destruct (Hframe s HV) as [Heq _].
  rewrite Hrow, lookup_replicate_2 in Heq by done. by injection Heq as ->.
Qed.

End RunOfSarsa.

Lemma fixture_first_episode_init :
  @episode_init _ (scripted no_script) fixture O
                [[0; 0]; [0; 0]] [[1#2; 1#2]; [1#2; 1#2]] (World [] [])
  = (Ret fixture_start, World [] [EvEnvReset]).
Proof. reflexivity. Defined.

Lemma fixture_run_one_iteration :
  @run_from _ (scripted no_script) fixture (1#2) (1#10) 1
            (initial_Q fixture) [[1#2; 1#2]; [1#2; 1#2]] [O] fixture_after.
Proof.
  eapply (@run_iteration _ (scripted no_script) fixture (1#2) (1#10) 1
            _ _ [] fixture_start).
  - eapply (@run_first _ (scripted no_script)).
    exact fixture_first_episode_init.
  - reflexivity.
  - exact fixture_first_iteration.
Defined.

Lemma policy_rows_invariant_witness :
  exists row,
    pi fixture_after !! 1%nat = Some row /\ Qsum row == 1 /\
    Forall (fun x => (1#10) / inject_Z (Z.of_nat 2) <= x /\
                     x <= 1 - (1#10) + (1#10) / inject_Z (Z.of_nat 2)) row /\
    (1%nat ∉ [O] -> row = replicate 2 (1 / inject_Z (Z.of_nat 2))).
Proof.
  apply (@policy_rows_invariant _ (scripted no_script) fixture (1#2) (1#10) 1
           [[1#2; 1#2]; [1#2; 1#2]] [O] fixture_after).
  - vm_compute. intuition discriminate.
  - reflexivity.
  - exact fixture_run_one_iteration.
  - unfold num_states. simpl. lia.
Defined.

(** ** Every episode iterates at least once *)

Lemma bind_assoc {G A B C} (m : M G A) (k : A -> M G B) (k' : B -> M G C) w :
  bind (bind m k) k' w = bind m (fun a => bind (k a) k') w.
Proof. unfold bind. by destruct (m w) as [[a| |] w1]. Qed.

Section Episode.

Context {G : Type} `{RandomSource G}.
Variable E : Environment.
Variables alpha epsilon gamma : Q.

Lemma while_loop_length fuel l (w w' : world G) l' :
  while_loop E alpha epsilon gamma fuel l w = (Ret l', w') ->
  (episode_length l <= episode_length l')%nat.
Proof.
  revert l w. induction fuel as [|fuel IH]; intros l w; simpl;
    destruct (done l); intros Hw.
  - inv_run. lia.
  - discriminate.
  - inv_run. lia.
  - apply bind_Ret_inv in Hw as (l1 & w1 & Hbody & Hrest).
    apply IH in Hrest.
    destruct (env_step E (action l) (env l)) as [[[ns r] d] e'] eqn:Hstep.
    destruct (loop_body_Ret_inv E alpha epsilon gamma l w l1 w1 ns r d e'
                Hstep Hbody) as (_ & _ & _ & _ & _ & _ & _ & _ & _ & Hlen & _).
    lia.
Qed.

Lemma while_loop_done fuel l (w : world G) :
  done l = true -> while_loop E alpha epsilon gamma fuel l w = (Ret l, w).
Proof. intros Hd. destruct fuel; simpl; by rewrite Hd. Qed.

Lemma episode_init_total env0 Q0 pi0 (w : world G) :
  0 <= epsilon <= 1 -> (0 < num_actions E)%nat ->
  env_ok E -> tables_ok E epsilon Q0 pi0 ->
  exists l0 w0,
    episode_init E env0 Q0 pi0 w = (Ret l0, w0) /\ wf_locals E epsilon l0.
Proof.
  intros Heps HA [Hreset _] [HQ Hpi]. unfold episode_init.
  rewrite (bind_Ret_intro (emit _) _ w tt _ eq_refl).
  specialize (Hreset env0). destruct (env_reset E env0) as [s env1].
  simpl in Hreset.
  destruct (policy_table_lookup E epsilon _ _ Hpi Hreset) as (p & Hp & Hrow).
  pose proof (policy_row_pvals_ok E epsilon Heps HA p Hrow) as Hok.
  destruct Hrow as (Hlp & _).
  destruct (np_random_choice_p_total (num_actions E) p
              (World (rng w) (log w ++ [EvEnvReset])) HA Hlp Hok)
    as (a & g1 & _ & Ha & Hc).
  unfold get_row. rewrite Hp.
  rewrite (bind_Ret_intro (lift (Ret p)) _ _ p _ eq_refl).
  rewrite (bind_Ret_intro _ _ _ a _ Hc).
  eexists _, _. split; [reflexivity|]. repeat split; simpl; try done.
  - by destruct HQ.
  - by destruct HQ.
  - by destruct Hpi.
  - by destruct Hpi.
Qed.

End Episode.


Lemma fixture_tables_ok :
  tables_ok fixture (1#10) [[0; 0]; [0; 0]] [[1#2; 1#2]; [1#2; 1#2]].
Proof.
  split.
  - split; [reflexivity | repeat constructor].
  - split; [reflexivity|].
    repeat constructor; vm_compute; intuition discriminate.
Defined.


(** ** The end-to-end scenario *)

Section Scenario.

Context {G : Type} `{RandomSource G}.

Lemma np_random_choice_p_draw n p (w : world G) i g :
  (0 < n)%nat -> length p = n -> pvals_ok p = true ->
  draw_weighted p (rng w) = (i, g) ->
  np_random_choice_p n p w = (Ret i, World g (log w)).
Proof.
  intros Hn Hlen Hok Hd.
  destruct (np_random_choice_p_total n p w Hn Hlen Hok)
    as (i' & g' & Hd' & _ & Hc).
  rewrite Hc. congruence.
Qed.

Lemma np_random_choice_draw xs (w : world G) i g x :
  draw_uniform (length xs) (rng w) = (i, g) -> xs !! i = Some x ->
  np_random_choice xs w = (Ret x, World g (log w)).
Proof.
  intros Hd Hx. unfold np_random_choice.
  destruct xs as [|y ys]; [discriminate|]. by rewrite Hd, Hx.
Qed.

(** The tables of the scenario after its single transition. *)
Definition scenario_Q : table := [[0 + (1#2) * (1 + 1 * 0 - 0); 0]; [0; 0]].
Definition scenario_pi : table :=
  [[1 - 0 + 0 / inject_Z 2; 0 / inject_Z 2]; [1#2; 1#2]].

Ltac run_pure := erewrite bind_Ret_intro by reflexivity.

Lemma scenario_episode (fuel : nat) (w0 : world G) :
  (draw_weighted [1#2; 1#2] (rng w0)).1 = O ->
  exists l w1,
    episode fixture (1#2) 0 1 (S fuel) O O
            [[0; 0]; [0; 0]] [[1#2; 1#2]; [1#2; 1#2]] w0 = (Ret l, w1) /\
    Qtab l = scenario_Q /\ pi l = scenario_pi /\
    episode_length l = 1%nat /\ episode_return l = 0 + 1 /\
    log w1 = log w0 ++
      [EvEnvReset; EvEnvStep 0;
       EvScalar "episode_length" 1 0; EvScalar "episode_return" (0 + 1) 0].
Proof.
  intros Hfirst.
  assert (Hok : pvals_ok [1#2; 1#2] = true) by reflexivity.
  destruct (draw_weighted [1#2; 1#2] (rng w0)) as [a0 g1] eqn:Hd1.
  simpl in Hfirst. subst a0.
  pose proof (draw_weighted_support [1#2; 1#2] g1 Hok) as (x & Hx & _).
  destruct (draw_weighted [1#2; 1#2] g1) as [na g2] eqn:Hd2.
  simpl in Hx.
  pose proof (draw_uniform_lt 1 g2 ltac:(lia)) as Hi.
  destruct (draw_uniform 1 g2) as [i0 g3] eqn:Hd3. simpl in Hi.
  assert (i0 = O) by lia. subst i0.
  set (w1 := World g1 (log w0 ++ [EvEnvReset])).
  set (w2 := World g2 (log w1 ++ [EvEnvStep 0])).
  assert (Hinit : episode_init fixture O [[0; 0]; [0; 0]]
                    [[1#2; 1#2]; [1#2; 1#2]] w0 = (Ret fixture_start, w1)).
  { unfold episode_init. run_pure. cbn [env_reset fixture]. run_pure.
    rewrite (bind_Ret_intro _ _ _ O w1); [reflexivity|].
    apply np_random_choice_p_draw;
      [unfold num_actions; simpl; lia | reflexivity | exact Hok | exact Hd1]. }
  assert (Hup : update_policy fixture 0 scenario_Q
                  [[1#2; 1#2]; [1#2; 1#2]] O w2
                = (Ret scenario_pi, World g3 (log w2))).
  { unfold update_policy. run_pure. run_pure.
    rewrite (bind_Ret_intro _ _ _ O (World g3 (log w2))); [reflexivity|].
    exact (np_random_choice_draw [O] w2 O g3 O Hd3 eq_refl). }
  assert (Hbody : loop_body fixture (1#2) 0 1 fixture_start w1
                  = (Ret (Locals 1%nat scenario_Q scenario_pi 1%nat na true
                                 1%nat (0 + 1)),
                     World g3 (log w2))).
  { unfold loop_body. run_pure.
    cbn [env_step fixture fixture_step action env fixture_start]. run_pure.
    rewrite (bind_Ret_intro _ _ _ na w2)
      by (apply np_random_choice_p_draw;
          [unfold num_actions; simpl; lia | reflexivity | exact Hok
          | exact Hd2]).
    assert (HuQ : update_Q (1#2) 1 (Qtab fixture_start) (state fixture_start)
                    (action fixture_start) 1 1 na = Ret scenario_Q).
    { destruct na as [|[|na]]; [reflexivity | reflexivity | discriminate]. }
    rewrite (bind_Ret_intro (lift _) _ _ scenario_Q w2)
      by (unfold lift; f_equal; exact HuQ).
    by rewrite (bind_Ret_intro _ _ _ _ _ Hup). }
  eexists _, _. split.
  - unfold episode. rewrite (bind_Ret_intro _ _ w0 _ _ Hinit).
    change (while_loop fixture (1#2) 0 1 (S fuel) fixture_start)
      with (bind (loop_body fixture (1#2) 0 1 fixture_start)
                 (while_loop fixture (1#2) 0 1 fuel)).
    rewrite bind_assoc, (bind_Ret_intro _ _ w1 _ _ Hbody).
    rewrite (bind_Ret_intro _ _ _ _ _
               (while_loop_done fixture (1#2) 0 1 fuel
                  (Locals 1%nat scenario_Q scenario_pi 1%nat na true
                          1%nat (0 + 1))
                  (World g3 (log w2)) eq_refl)).
    reflexivity.
  - simpl. repeat split; try reflexivity.
    rewrite <- !app_assoc. reflexivity.
Qed.

(** C8, amended.  In the scenario (one episode, [alpha = 1/2], [gamma = 1],
    [epsilon = 0], any random source, any seed), provided the first action
    drawn from the initial uniform row of state 0 is action 0, the run
    completes with [Q[0,0]] equal to [1/2] (from the initial 0), reported
    episode length 1 and reported return 1. *)
Theorem scenario_with_first_action_0 (fuel : nat) (seed : Z) (w : world G) :
  (draw_weighted [1#2; 1#2] (rng_seed seed)).1 = O ->
  exists Q1 pi1 w' q ret,
    sarsa fixture (1#2) 0 1 (S fuel) 1 seed w = (Ret (Q1, pi1), w') /\
    get2 (initial_Q fixture) 0 0 = Ret 0 /\
    get2 Q1 0 0 = Ret q /\ q == 1#2 /\ ret == 1 /\
    log w' = log w ++
      [EvFileWriter; EvEnvFn; EvEnvSeed seed; EvEnvReset; EvEnvStep 0;
       EvScalar "episode_length" 1 0; EvScalar "episode_return" ret 0;
       EvEnvClose; EvWriterClose].
Proof.
  intros Hfirst.
  set (w0 := World (rng_seed seed)
                   (((log w ++ [EvFileWriter]) ++ [EvEnvFn])
                    ++ [EvEnvSeed seed])).
  destruct (scenario_episode fuel w0 Hfirst)
    as (l & w1 & Hep & HQ & Hpi & _ & _ & Hlog).
  assert (Hmain : main_loop fixture (1#2) 0 1 (S fuel) [O] O
                    [[0; 0]; [0; 0]] [[1#2; 1#2]; [1#2; 1#2]] w0
                  = (Ret (env l, scenario_Q, scenario_pi), w1)).
  { cbn [main_loop]. rewrite (bind_Ret_intro _ _ _ _ _ Hep).
    cbn [main_loop]. unfold ret. by rewrite HQ, Hpi. }
  exists scenario_Q, scenario_pi,
         (World (rng w1) ((log w1 ++ [EvEnvClose]) ++ [EvWriterClose])),
         (0 + (1#2) * (1 + 1 * 0 - 0)), (0 + 1).
  split; [|split; [reflexivity|split; [reflexivity|split; [reflexivity|
          split; [reflexivity|]]]]].
  - unfold sarsa. run_pure. unfold sarsa_run. run_pure. run_pure. run_pure.
    run_pure. run_pure. erewrite bind_Ret_intro by exact Hmain.
    reflexivity.
  - simpl. rewrite Hlog. subst w0. simpl. rewrite <- !app_assoc. reflexivity.
Qed.

End Scenario.

(** C8, as the spec states it, fails when the random source draws action 1
    first: the initial policy row is uniform whatever [epsilon] is, the
    transition then gives reward 0, and the run ends with [Q[0,0] = 0] and
    reported return 0. *)
Lemma scenario_with_first_action_1 :
  exists Q1 pi1 w',
    @sarsa _ (scripted (fun _ => [1%nat])) fixture (1#2) 0 1 5 1 0
           (World [] [])
    = (Ret (Q1, pi1), w') /\
    get2 Q1 0 0 = Ret 0 /\ ~ 0 == 1#2 /\
    log w' = [EvFileWriter; EvEnvFn; EvEnvSeed 0; EvEnvReset; EvEnvStep 1;
              EvScalar "episode_length" 1 0; EvScalar "episode_return" 0 0;
              EvEnvClose; EvWriterClose].
Proof.
  eexists _, _, _. split; [vm_compute; reflexivity|].
  split; [reflexivity|]. split; [discriminate | reflexivity].
Qed.

Lemma scenario_with_first_action_0_witness :
  exists Q1 pi1 w' q ret,
    @sarsa _ (scripted (fun _ => [O])) fixture (1#2) 0 1 5 1 0 (World [] [])
    = (Ret (Q1, pi1), w') /\
    get2 (initial_Q fixture) 0 0 = Ret 0 /\
    get2 Q1 0 0 = Ret q /\ q == 1#2 /\ ret == 1 /\
    log w' = [] ++
      [EvFileWriter; EvEnvFn; EvEnvSeed 0; EvEnvReset; EvEnvStep 0;
       EvScalar "episode_length" 1 0; EvScalar "episode_return" ret 0;
       EvEnvClose; EvWriterClose].
Proof.
  apply (@scenario_with_first_action_0 _ (scripted (fun _ => [O]))
           4 0%Z (World [] [])).
  reflexivity.
Defined.

(** * Further properties of [sarsa] *)

(** ** Which assertion fails *)

Section ValidationMessages.

Variables alpha epsilon gamma : Q.

(** The four assertions are tried in order, so the message tells the first
    bound that is violated.  The first assertion checks [alpha > 0] together
    with [epsilon <= 1] and carries the text about [epsilon]; the second can
    therefore only fail on a negative [epsilon]. *)
Theorem validate_message (num_episodes : Z) :
  (~ 0 < alpha \/ 1 < epsilon ->
   validate alpha epsilon gamma num_episodes
   = Raise (AssertionError "epsilon must be in (0, 1]")) /\
  (0 < alpha -> epsilon < 0 ->
   validate alpha epsilon gamma num_episodes
   = Raise (AssertionError "epsilon must be in [0, 1]")) /\
  (0 < alpha -> 0 <= epsilon <= 1 -> ~ 0 <= gamma <= 1 ->
   validate alpha epsilon gamma num_episodes
   = Raise (AssertionError "gamma must be in [0, 1]")) /\
  (0 < alpha -> 0 <= epsilon <= 1 -> 0 <= gamma <= 1 ->
   (num_episodes <= 0)%Z ->
   validate alpha epsilon gamma num_episodes
   = Raise (AssertionError "num_episodes must be positive")).
Proof.
  unfold validate, py_assert, obind.
  destruct (Qlt_bool 0 alpha) eqn:Ha; destruct (Qle_bool epsilon 1) eqn:He1;
    destruct (Qle_bool 0 epsilon) eqn:He0; destruct (Qle_bool 0 gamma) eqn:Hg0;
    destruct (Qle_bool gamma 1) eqn:Hg1;
    destruct (0 <? num_episodes)%Z eqn:Hn; simpl;
    repeat match goal with
    | Hb : Qlt_bool _ _ = true |- _ => apply Qlt_bool_iff in Hb
    | Hb : Qle_bool _ _ = true |- _ => apply Qle_bool_iff in Hb
    | Hb : Qlt_bool _ _ = false |- _ =>
        apply not_true_iff_false in Hb; rewrite Qlt_bool_iff in Hb
    | Hb : Qle_bool _ _ = false |- _ =>
        apply not_true_iff_false in Hb; rewrite Qle_bool_iff in Hb
    | Hb : (_ <? _)%Z = true |- _ => apply Z.ltb_lt in Hb
    | Hb : (_ <? _)%Z = false |- _ => apply Z.ltb_ge in Hb
    end;
    (split; [|split; [|split]]); intros; try reflexivity; exfalso;
    try tauto; try lra; try lia.
Qed.

End ValidationMessages.

Lemma validate_message_witness :
  validate 0 (1#10) 1 3 = Raise (AssertionError "epsilon must be in (0, 1]") /\
  validate (1#2) (-1#10) 1 3
  = Raise (AssertionError "epsilon must be in [0, 1]") /\
  validate (1#2) (1#10) (3#2) 3
  = Raise (AssertionError "gamma must be in [0, 1]") /\
  validate (1#2) (1#10) 1 0
  = Raise (AssertionError "num_episodes must be positive").
Proof.
  split; [|split; [|split]].
  - apply (proj1 (validate_message 0 (1#10) 1 3)).
    left. vm_compute. discriminate.
  - apply (proj1 (proj2 (validate_message (1#2) (-1#10) 1 3)));
      reflexivity.
  - apply (proj1 (proj2 (proj2 (validate_message (1#2) (1#10) (3#2) 3))));
      vm_compute; intuition discriminate.
  - apply (proj2 (proj2 (proj2 (validate_message (1#2) (1#10) 1 0))));
      vm_compute; intuition discriminate.
Defined.

(** ** The shape of the log *)

(** The number of [env.reset()] calls in a list of events. *)
Fixpoint count_resets (evs : list event) : nat :=
  match evs with
  | [] => O
  | EvEnvReset :: evs' => S (count_resets evs')
  | _ :: evs' => count_resets evs'
  end.

(** The number of [env.step] calls in a list of events. *)
Fixpoint count_steps (evs : list event) : nat :=
  match evs with
  | [] => O
  | EvEnvStep _ :: evs' => S (count_steps evs')
  | _ :: evs' => count_steps evs'
  end.

(** The episode lengths written to the summary: episode index and value. *)
Fixpoint length_reports (evs : list event) : list (nat * Q) :=
  match evs with
  | [] => []
  | EvScalar name v i :: evs' =>
      if String.eqb name "episode_length" then (i, v) :: length_reports evs'
      else length_reports evs'
  | _ :: evs' => length_reports evs'
  end.

(** An event of the episode loop: a reset, a step or a scalar. *)
Definition loop_event (e : event) : Prop :=
  match e with
  | EvEnvReset | EvEnvStep _ | EvScalar _ _ _ => True
  | _ => False
  end.

Lemma count_resets_app evs1 evs2 :
  count_resets (evs1 ++ evs2) = (count_resets evs1 + count_resets evs2)%nat.
Proof.
  induction evs1 as [|e evs1 IH]; [done|]. destruct e; simpl; lia.
Qed.

Lemma count_steps_app evs1 evs2 :
  count_steps (evs1 ++ evs2) = (count_steps evs1 + count_steps evs2)%nat.
Proof.
  induction evs1 as [|e evs1 IH]; [done|]. destruct e; simpl; lia.
Qed.

Lemma length_reports_app evs1 evs2 :
  length_reports (evs1 ++ evs2) = length_reports evs1 ++ length_reports evs2.
Proof.
  induction evs1 as [|e evs1 IH]; [done|]. destruct e; simpl; try done.
  destruct (String.eqb name _); simpl; by rewrite IH.
Qed.

Lemma count_resets_steps acts : count_resets (map EvEnvStep acts) = O.
Proof. induction acts; [done|]. by simpl. Qed.

Lemma count_steps_steps acts :
  count_steps (map EvEnvStep acts) = length acts.
Proof. induction acts as [|a acts IH]; [done|]. simpl. by rewrite IH. Qed.

Lemma length_reports_steps acts : length_reports (map EvEnvStep acts) = [].
Proof. induction acts; [done|]. by simpl. Qed.

Section LogShape.

Context {G : Type} `{RandomSource G}.
Variable E : Environment.
Variables alpha epsilon gamma : Q.

Lemma loop_body_log l (w w' : world G) l' :
  loop_body E alpha epsilon gamma l w = (Ret l', w') ->
  log w' = log w ++ [EvEnvStep (action l)] /\
  episode_length l' = S (episode_length l).
Proof.
  intros Hbody.
  destruct (env_step E (action l) (env l)) as [[[ns r] d] e'] eqn:Hstep.
  destruct (loop_body_Ret_inv E alpha epsilon gamma l w l' w' ns r d e'
              Hstep Hbody)
    as (p & g1 & _ & _ & _ & Hup & _ & _ & _ & Hlen & _).
  apply update_policy_Ret_inv in Hup
    as (_ & _ & _ & _ & _ & _ & _ & _ & Hlog & _).
  split; [by rewrite Hlog | exact Hlen].
Qed.

Lemma while_loop_log fuel l (w w' : world G) l' :
  while_loop E alpha epsilon gamma fuel l w = (Ret l', w') ->
  exists acts,
    log w' = log w ++ map EvEnvStep acts /\
    episode_length l' = (episode_length l + length acts)%nat.
Proof.
  revert l w. induction fuel as [|fuel IH]; intros l w; simpl;
    destruct (done l); intros Hw.
  - inv_run. exists []. simpl. by rewrite app_nil_r, Nat.add_0_r.
  - discriminate.
  - inv_run. exists []. simpl. by rewrite app_nil_r, Nat.add_0_r.
  - apply bind_Ret_inv in Hw as (l1 & w1 & Hbody & Hrest).
    apply loop_body_log in Hbody as [Hlog1 Hlen1].
    apply IH in Hrest as (acts & Hlog & Hlen).
    exists (action l :: acts). simpl.
    rewrite Hlog, Hlog1, Hlen, Hlen1, <- app_assoc. split; [done | lia].
Qed.

(** The calls of one completed episode, in order: one reset, then the
    environment steps, then the two scalars; the episode length written to
    the summary is the number of steps. *)
Theorem episode_log fuel i env0 Q0 pi0 (w w' : world G) l :
  episode E alpha epsilon gamma fuel i env0 Q0 pi0 w = (Ret l, w') ->
  exists acts,
    log w' = log w ++ EvEnvReset :: map EvEnvStep acts ++
      [EvScalar "episode_length" (inject_Z (Z.of_nat (length acts))) i;
       EvScalar "episode_return" (episode_return l) i] /\
    episode_length l = length acts.
Proof.
  intros Hep.
  apply episode_Ret_inv in Hep as (l0 & w0 & w1 & Hinit & Hw & _ & Hlog).
  apply episode_init_Ret_inv in Hinit
    as (_ & _ & _ & Hlen0 & _ & _ & _ & Hlog0 & _).
  apply while_loop_log in Hw as (acts & Hlogw & Hlen).
  rewrite Hlen0 in Hlen. simpl in Hlen. exists acts. split; [|done].
  rewrite Hlog, Hlogw, Hlog0, Hlen, <- !app_assoc. done.
Qed.

Lemma main_loop_log fuel episodes env0 Q0 pi0 (w w' : world G) r :
  main_loop E alpha epsilon gamma fuel episodes env0 Q0 pi0 w = (Ret r, w') ->
  exists evs,
    log w' = log w ++ evs /\ Forall loop_event evs /\
    count_resets evs = length episodes /\
    map fst (length_reports evs) = episodes /\
    Qsum (map snd (length_reports evs))
    == inject_Z (Z.of_nat (count_steps evs)).
Proof.
  revert env0 Q0 pi0 w. induction episodes as [|i episodes IH];
    intros env0 Q0 pi0 w; simpl; intros Hm.
  - inv_run. exists []. rewrite app_nil_r. repeat split; try done.
  - apply bind_Ret_inv in Hm as (l1 & w1 & Hep & Hrest).
    apply episode_log in Hep as (acts & Hlog1 & _).
    apply IH in Hrest as (evs & Hlog & Hall & Hres & Hrep & Hsum).
    eexists. split; [by rewrite Hlog, Hlog1, <- app_assoc|].
    split; [|split; [|split]].
    + constructor; [done|]. rewrite !Forall_app. split; [split|done].
      * apply Forall_fmap, Forall_forall. by intros a _.
      * by repeat constructor.
    + simpl. rewrite !count_resets_app, count_resets_steps. simpl.
      by rewrite Hres.
    + simpl. rewrite !length_reports_app, length_reports_steps. simpl.
      by rewrite Hrep.
    + simpl. rewrite !length_reports_app, length_reports_steps. simpl.
      rewrite !count_steps_app, count_steps_steps. simpl.
      rewrite Hsum, !Nat2Z.inj_add, !inject_Z_plus. simpl. ring.
Qed.

End LogShape.

(** ** Events of a run that does not complete *)

Definition emits {G A} (P : event -> Prop) (m : M G A) : Prop :=
  forall w, exists evs, log (m w).2 = log w ++ evs /\ Forall P evs.

Lemma emits_quiet {G A} P (m : M G A) :
  (forall w, log (m w).2 = log w) -> emits P m.
Proof. intros Hq w. exists []. by rewrite app_nil_r, Hq. Qed.

Lemma emits_emit {G} (P : event -> Prop) e : P e -> emits P (@emit G e).
Proof. intros He w. exists [e]. split; [done | by constructor]. Qed.

Lemma emits_bind {G A B} P (m : M G A) (k : A -> M G B) :
  emits P m -> (forall a, emits P (k a)) -> emits P (bind m k).
Proof.
  intros Hm Hk w. unfold bind. destruct (Hm w) as (evs & Hevs & Hall).
  destruct (m w) as [[a| |] w1]; simpl in *; try by exists evs.
  destruct (Hk a w1) as (evs' & Hevs' & Hall'). exists (evs ++ evs').
  split; [by rewrite Hevs', Hevs, app_assoc | by apply Forall_app].
Qed.

Lemma quiet_np_random_choice_p {G} `{RandomSource G} n p (w : world G) :
  log (np_random_choice_p n p w).2 = log w.
Proof.
  unfold np_random_choice_p.
  destruct (_ && _); [|done]. by destruct (draw_weighted p (rng w)).
Qed.

Lemma quiet_np_random_choice {G} `{RandomSource G} xs (w : world G) :
  log (np_random_choice xs w).2 = log w.
Proof.
  unfold np_random_choice.
  destruct xs; [done|]. destruct (draw_uniform _ (rng w)) as [i g].
  by destruct (_ !! i).
Qed.

Ltac emits_tac :=
  repeat first
    [ apply emits_bind; [|intros ?]
    | apply emits_emit; exact I
    | apply emits_quiet; intros ?; first
        [ reflexivity
        | apply quiet_np_random_choice_p
        | apply quiet_np_random_choice ]
    | match goal with
      | |- emits _ (let '(_, _) := ?x in _) => destruct x
      end ].

Section RunEvents.

Context {G : Type} `{RandomSource G}.
Variable E : Environment.
Variables alpha epsilon gamma : Q.

Lemma emits_loop_body l :
  emits loop_event (loop_body E alpha epsilon gamma l).
Proof. unfold loop_body. emits_tac. Qed.

Lemma emits_while_loop fuel l :
  emits loop_event (while_loop E alpha epsilon gamma fuel l).
Proof.
  revert l. induction fuel as [|fuel IH]; intros l; simpl;
    destruct (done l); emits_tac; first [apply emits_loop_body | apply IH].
Qed.

Lemma emits_episode fuel i env0 Q0 pi0 :
  emits loop_event (episode E alpha epsilon gamma fuel i env0 Q0 pi0).
Proof.
  unfold episode, episode_summary, episode_init. emits_tac;
    apply emits_while_loop.
Qed.

Lemma emits_main_loop fuel episodes env0 Q0 pi0 :
  emits loop_event
        (main_loop E alpha epsilon gamma fuel episodes env0 Q0 pi0).
Proof.
  revert env0 Q0 pi0. induction episodes as [|i episodes IH];
    intros env0 Q0 pi0; simpl; emits_tac;
    first [apply emits_episode | apply emits_while_loop | apply IH].
Qed.

(** The world in which the main loop starts. *)
Definition seeded (seed : Z) (w : world G) : world G :=
  World (rng_seed seed)
        (log w ++ [EvFileWriter; EvEnvFn; EvEnvSeed seed]).

Lemma sarsa_run_unfold fuel num_episodes seed (w : world G) :
  sarsa_run E alpha epsilon gamma fuel num_episodes seed w
  = match initial_pi E with
    | Ret pi0 =>
      match main_loop E alpha epsilon gamma fuel
                      (seq 0 (Z.to_nat num_episodes))
                      (env_seed E seed (env_fn E)) (initial_Q E) pi0
                      (seeded seed w) with
      | (Ret (_, Q1, pi1), w1) =>
          (Ret (Q1, pi1),
           World (rng w1) (log w1 ++ [EvEnvClose; EvWriterClose]))
      | (Raise e, w1) => (Raise e, w1)
      | (OutOfFuel, w1) => (OutOfFuel, w1)
      end
    | Raise e => (Raise e, seeded seed w)
    | OutOfFuel => (OutOfFuel, seeded seed w)
    end.
Proof.
  unfold sarsa_run, seeded, bind, emit, np_random_seed, lift, ret. simpl.
  rewrite <- !app_assoc. simpl.
  destruct (initial_pi E) as [pi0| |]; try reflexivity.
  destruct (main_loop _ _ _ _ _ _ _ _ _ _) as [[[[env1 Q1] pi1]| |] w1];
    try reflexivity.
  simpl. by rewrite <- app_assoc.
Qed.

Lemma sarsa_unfold fuel num_episodes seed (w : world G) :
  sarsa E alpha epsilon gamma fuel num_episodes seed w
  = match validate alpha epsilon gamma num_episodes with
    | Ret _ => sarsa_run E alpha epsilon gamma fuel num_episodes seed w
    | Raise e => (Raise e, w)
    | OutOfFuel => (OutOfFuel, w)
    end.
Proof.
  unfold sarsa, bind, lift.
  by destruct (validate alpha epsilon gamma num_episodes).
Qed.

(** The calls of a completed run, in order: the summary writer is opened,
    the environment is created and seeded, the episodes follow, and the
    environment and the writer are closed.  There is one reset per episode,
    the episode lengths are written for the indices [0 .. num_episodes - 1]
    in order, and they add up to the number of environment steps. *)
Theorem sarsa_log fuel num_episodes seed (w w' : world G) Q1 pi1 :
  sarsa E alpha epsilon gamma fuel num_episodes seed w
  = (Ret (Q1, pi1), w') ->
  exists evs,
    log w' = log w ++ [EvFileWriter; EvEnvFn; EvEnvSeed seed] ++ evs
                   ++ [EvEnvClose; EvWriterClose] /\
    Forall loop_event evs /\
    count_resets evs = Z.to_nat num_episodes /\
    map fst (length_reports evs) = seq 0 (Z.to_nat num_episodes) /\
    Qsum (map snd (length_reports evs))
    == inject_Z (Z.of_nat (count_steps evs)).
Proof.
  rewrite sarsa_unfold.
  destruct (validate alpha epsilon gamma num_episodes); try discriminate.
  rewrite sarsa_run_unfold.
  destruct (initial_pi E) as [pi0| |]; try discriminate.
  destruct (main_loop _ _ _ _ _ _ _ _ _ _) as [[[[env1 Q2] pi2]| |] w1]
    eqn:Hmain; try discriminate.
  intros [= <- <- <-].
  apply main_loop_log in Hmain as (evs & Hlog & Hall & Hres & Hrep & Hsum).
  exists evs. rewrite length_seq in Hres. simpl. rewrite Hlog. simpl.
  rewrite <- !app_assoc. done.
Qed.

(** A run that does not complete, because an exception escapes or the loop
    never ends, closes neither the environment nor the summary writer. *)
Theorem sarsa_failure_leaves_open fuel num_episodes seed (w w' : world G) o :
  sarsa E alpha epsilon gamma fuel num_episodes seed w = (o, w') ->
  (forall r, o <> Ret r) ->
  exists evs,
    log w' = log w ++ evs /\ (EvEnvClose ∉ evs) /\ (EvWriterClose ∉ evs).
Proof.
  rewrite sarsa_unfold.
  assert (Hno : forall evs, Forall loop_event evs ->
                  (EvEnvClose ∉ evs) /\ (EvWriterClose ∉ evs)).
  { intros evs Hall. rewrite Forall_forall in Hall.
    split; intros Hin; by apply Hall in Hin. }
  assert (Hhead : (EvEnvClose ∉ [EvFileWriter; EvEnvFn; EvEnvSeed seed]) /\
                  (EvWriterClose ∉ [EvFileWriter; EvEnvFn; EvEnvSeed seed])).
  { split; intros Hin; repeat (apply elem_of_cons in Hin as [Hin|Hin];
      [discriminate|]); inversion Hin. }
  destruct (validate alpha epsilon gamma num_episodes).
  - rewrite sarsa_run_unfold.
    destruct (initial_pi E) as [pi0| |].
    + pose proof (emits_main_loop fuel (seq 0 (Z.to_nat num_episodes))
                    (env_seed E seed (env_fn E)) (initial_Q E) pi0
                    (seeded seed w)) as (evs & Hlog & Hall).
      destruct (main_loop _ _ _ _ _ _ _ _ _ _) as [[[[env1 Q2] pi2]| |] w1];
        intros [= <- <-] Hnot; [by destruct (Hnot (Q2, pi2))| |];
        (exists ([EvFileWriter; EvEnvFn; EvEnvSeed seed] ++ evs);
         split; [simpl in Hlog; rewrite Hlog; simpl;
                 by rewrite <- app_assoc|];
         destruct (Hno evs Hall); destruct Hhead;
         split; rewrite elem_of_app; tauto).
    + intros [= <- <-] _. exists [EvFileWriter; EvEnvFn; EvEnvSeed seed].
      by destruct Hhead.
    + intros [= <- <-] _. exists [EvFileWriter; EvEnvFn; EvEnvSeed seed].
      by destruct Hhead.
  - intros [= <- <-] _. exists []. rewrite app_nil_r.
    split; [done|]. split; intros Hin; inversion Hin.
  - intros [= <- <-] _. exists []. rewrite app_nil_r.
    split; [done|]. split; intros Hin; inversion Hin.
Qed.

(** [np.random.seed(seed)] makes the run independent of the state the
    generator was in before the call: the outcome and the log are the
    same. *)
Theorem sarsa_ignores_earlier_draws fuel num_episodes seed (g1 g2 : G) lg :
  (sarsa E alpha epsilon gamma fuel num_episodes seed (World g1 lg)).1
  = (sarsa E alpha epsilon gamma fuel num_episodes seed (World g2 lg)).1 /\
  log (sarsa E alpha epsilon gamma fuel num_episodes seed (World g1 lg)).2
  = log (sarsa E alpha epsilon gamma fuel num_episodes seed (World g2 lg)).2.
Proof.
  rewrite !sarsa_unfold.
  destruct (validate alpha epsilon gamma num_episodes); done.
Qed.

End RunEvents.

(** ** A run on a well-behaved environment stays inside its tables *)

Section Safety.

Context {G : Type} `{RandomSource G}.
Variable E : Environment.
Variables alpha epsilon gamma : Q.

Hypothesis epsilon_range : 0 <= epsilon <= 1.
Hypothesis actions_pos : (0 < num_actions E)%nat.
Hypothesis env_in_range : env_ok E.

Lemma while_loop_safe fuel l (w : world G) :
  wf_locals E epsilon l ->
  match (while_loop E alpha epsilon gamma fuel l w).1 with
  | Ret l' => wf_locals E epsilon l' /\ done l' = true
  | Raise _ => False
  | OutOfFuel => True
  end.
Proof.
  revert l w. induction fuel as [|fuel IH]; intros l w Hwf; simpl;
    destruct (done l) eqn:Hd; simpl; try done.
  destruct (env_step E (action l) (env l)) as [[[ns r] d] e'] eqn:Hstep.
  destruct (loop_body_total E alpha epsilon gamma epsilon_range actions_pos
              l w ns r d e' env_in_range Hwf Hstep) as (l1 & w1 & Hbody & Hwf1).
  rewrite (bind_Ret_intro _ _ w l1 w1 Hbody). by apply IH.
Qed.

Lemma episode_safe fuel i env0 Q0 pi0 (w : world G) :
  tables_ok E epsilon Q0 pi0 ->
  match (episode E alpha epsilon gamma fuel i env0 Q0 pi0 w).1 with
  | Ret l => tables_ok E epsilon (Qtab l) (pi l)
  | Raise _ => False
  | OutOfFuel => True
  end.
Proof.
  intros Htab.
  destruct (episode_init_total E epsilon env0 Q0 pi0 w epsilon_range
              actions_pos env_in_range Htab) as (l0 & w0 & Hinit & Hwf).
  unfold episode. rewrite (bind_Ret_intro _ _ w l0 w0 Hinit).
  pose proof (while_loop_safe fuel l0 w0 Hwf) as Hw. unfold bind.
  destruct (while_loop E alpha epsilon gamma fuel l0 w0) as [[l1| |] w1];
    simpl in *; try done.
  by destruct Hw as [[Htab1 _] _].
Qed.

Lemma main_loop_safe fuel episodes env0 Q0 pi0 (w : world G) :
  tables_ok E epsilon Q0 pi0 ->
  forall e,
    (main_loop E alpha epsilon gamma fuel episodes env0 Q0 pi0 w).1
    <> Raise e.
Proof.
  revert env0 Q0 pi0 w. induction episodes as [|i episodes IH];
    intros env0 Q0 pi0 w Htab e; simpl; [done|].
  pose proof (episode_safe fuel i env0 Q0 pi0 w Htab) as Hep. unfold bind.
  destruct (episode E alpha epsilon gamma fuel i env0 Q0 pi0 w)
    as [[l| |] w1]; simpl in *; try done.
  by apply IH.
Qed.

Lemma initial_tables_ok :
  initial_pi E = Ret (replicate (num_states E) (uniform_row E)) /\
  tables_ok E epsilon (initial_Q E)
            (replicate (num_states E) (uniform_row E)).
Proof.
  split.
  - unfold initial_pi.
    destruct (Nat.eqb_spec (num_actions E) 0) as [Hz|_]; [lia | done].
  - split; [apply table_dims_replicate|]. split; [apply length_replicate|].
    apply Forall_replicate. by apply policy_row_uniform.
Qed.

End Safety.

Section SafetyOfSarsa.

Context {G : Type} `{RandomSource G}.
Variable E : Environment.
Variables alpha epsilon gamma : Q.

(** With at least one action and an environment whose reset and step answer
    inside the observation space, no index into the tables is ever out of
    range and no division by zero occurs: [sarsa] raises neither an index
    error nor a zero-division error. *)
Theorem sarsa_raises_no_index_error fuel num_episodes seed (w w' : world G)
    e :
  (0 < num_actions E)%nat -> env_ok E ->
  sarsa E alpha epsilon gamma fuel num_episodes seed w = (Raise e, w') ->
  e <> IndexError /\ e <> ZeroDivisionError.
Proof.
  intros HA Henv. rewrite sarsa_unfold.
  destruct (validate_cases alpha epsilon gamma num_episodes) as [Hv|[msg Hv]];
    rewrite Hv; [|intros [= <- <-]; by split].
  apply validate_Ret_iff in Hv as (_ & Heps & _).
  rewrite sarsa_run_unfold.
  destruct (initial_tables_ok E epsilon Heps HA) as [-> Htab].
  pose proof (main_loop_safe E alpha epsilon gamma Heps HA Henv fuel
                (seq 0 (Z.to_nat num_episodes))
                (env_seed E seed (env_fn E)) _ _ (seeded seed w) Htab e)
    as Hsafe.
  destruct (main_loop _ _ _ _ _ _ _ _ _ _) as [[[[env1 Q2] pi2]| |] w1];
    simpl in Hsafe; intros [= ? ?]; subst; done.
Qed.

(** The tables a completed run ends with have one row per state and one
    entry per action, and every row of the policy is a probability row. *)
Theorem sarsa_result_shape fuel num_episodes seed (w w' : world G) Q1 pi1 :
  sarsa E alpha epsilon gamma fuel num_episodes seed w
  = (Ret (Q1, pi1), w') ->
  table_dims (num_states E) (num_actions E) Q1 /\
  table_dims (num_states E) (num_actions E) pi1 /\
  Forall (fun row => pvals_ok row = true) pi1.
Proof.
  intros Hs.
  apply (sarsa_result_reachable E alpha epsilon gamma) in Hs.
  destruct Hs as (Heps & pi0 & V & l & Hpi0 & Hrun & <- & <-).
  assert (HA : (0 < num_actions E)%nat).
  { unfold initial_pi in Hpi0.
    destruct (Nat.eqb_spec (num_actions E) 0); [discriminate | lia]. }
  destruct (initial_tables_ok E epsilon Heps HA) as [Hpi0' Htab].
  rewrite Hpi0' in Hpi0. injection Hpi0 as <-.
  destruct (run_from_invariant E alpha epsilon gamma Heps HA _ _ _ _ Htab Hrun)
    as [[HQ Hpi] _].
  split; [done|]. split; [by apply (policy_table_dims E epsilon)|].
  destruct Hpi as [_ Hrows]. eapply Forall_impl; [exact Hrows|].
  intros row Hrow. by apply (policy_row_pvals_ok E epsilon).
Qed.

End SafetyOfSarsa.

(** ** An environment that leaves its observation space *)

Section OutOfRange.

Context {G : Type} `{RandomSource G}.
Variable E : Environment.
Variables alpha epsilon gamma : Q.

(** When [env.reset()] answers a state that is no row of the tables, the run
    stops with an index error at the first [pi[state]]: the environment has
    been reset but never stepped, and nothing was drawn since the seeding. *)
Theorem reset_out_of_range_raises fuel num_episodes seed (w : world G) :
  0 < alpha -> 0 <= epsilon <= 1 -> 0 <= gamma <= 1 ->
  (0 < num_episodes)%Z -> (0 < num_actions E)%nat ->
  (num_states E <= (env_reset E (env_seed E seed (env_fn E))).1)%nat ->
  sarsa E alpha epsilon gamma fuel num_episodes seed w
  = (Raise IndexError,
     World (rng_seed seed)
           (log w ++ [EvFileWriter; EvEnvFn; EvEnvSeed seed; EvEnvReset])).
Proof.
  intros Ha Heps Hg Hn HA Hout. rewrite sarsa_unfold.
  rewrite (proj2 (validate_Ret_iff alpha epsilon gamma num_episodes))
    by done.
  rewrite sarsa_run_unfold.
  destruct (initial_tables_ok E epsilon Heps HA) as [-> _].
  destruct (Z.to_nat num_episodes) as [|n] eqn:Hnat; [lia|].
  simpl. unfold bind at 1. unfold episode. unfold bind at 1.
  unfold episode_init. unfold bind at 1. unfold emit at 1.
  destruct (env_reset E (env_seed E seed (env_fn E))) as [s env1].
  simpl in Hout. unfold bind at 1. unfold lift, get_row.
  rewrite (lookup_ge_None_2 (replicate (num_states E) (uniform_row E)) s)
    by (rewrite length_replicate; lia).
  simpl. by rewrite <- app_assoc.
Qed.

(** When [env.step] answers a state that is no row of the tables, the
    iteration stops with an index error at [Q[next_state, next_action]]:
    the step has been taken and the next action drawn, and neither table has
    been written. *)
Theorem step_out_of_range_raises l (w : world G) ns r d e' :
  0 <= epsilon <= 1 -> (0 < num_actions E)%nat ->
  wf_locals E epsilon l ->
  env_step E (action l) (env l) = (ns, r, d, e') ->
  (num_states E <= ns)%nat ->
  exists p,
    pi l !! state l = Some p /\
    loop_body E alpha epsilon gamma l w
    = (Raise IndexError,
       World (draw_weighted p (rng w)).2
             (log w ++ [EvEnvStep (action l)])).
Proof.
  intros Heps HA ([HQ Hpi] & Hs & Hact) Hstep Hout.
  destruct (policy_table_lookup E epsilon _ _ Hpi Hs) as (p & Hp & Hrow).
  pose proof (policy_row_pvals_ok E epsilon Heps HA p Hrow) as Hok.
  destruct Hrow as (Hlp & _).
  destruct (np_random_choice_p_total (num_actions E) p
              (World (rng w) (log w ++ [EvEnvStep (action l)]))
              HA Hlp Hok) as (na & g1 & Hdraw & Hna & Hc).
  exists p. split; [done|]. unfold loop_body.
  rewrite (bind_Ret_intro (emit _) _ w tt _ eq_refl). rewrite Hstep.
  unfold get_row. rewrite Hp.
  rewrite (bind_Ret_intro (lift (Ret p)) _ _ p _ eq_refl).
  rewrite (bind_Ret_intro _ _ _ na _ Hc).
  simpl in Hdraw. rewrite Hdraw. simpl.
  unfold bind, lift, update_Q, get2.
  destruct HQ as [HlenQ _].
  rewrite (lookup_ge_None_2 (Qtab l) ns) by lia. done.
Qed.

End OutOfRange.

(** An environment whose reset answers state 5 of 2. *)
Definition stray : Environment := {|
  env_t := nat;
  env_fn := O;
  observation_space_n := 2;
  action_space_n := 2;
  env_seed := fun _ s => s;
  env_reset := fun _ => (5%nat, O);
  env_step := fixture_step
|}.

(** An environment whose step answers state 7 of 2. *)
Definition drift : Environment := {|
  env_t := nat;
  env_fn := O;
  observation_space_n := 2;
  action_space_n := 2;
  env_seed := fun _ s => s;
  env_reset := fun _ => (O, O);
  env_step := fun _ s => ((7%nat, 0, false), s)
|}.

Lemma reset_out_of_range_raises_witness :
  @sarsa _ (scripted no_script) stray (1#2) (1#10) 1 5 3 0 (World [] [])
  = (Raise IndexError,
     World [] ([] ++ [EvFileWriter; EvEnvFn; EvEnvSeed 0; EvEnvReset])).
Proof.
  apply (@reset_out_of_range_raises _ (scripted no_script) stray
           (1#2) (1#10) 1 5 3 0 (World [] []));
    try (vm_compute; intuition discriminate).
  - unfold num_actions. simpl. lia.
  - unfold num_states. simpl. lia.
Defined.

Lemma drift_start_wf : wf_locals drift (1#10) fixture_start.
Proof.
  split; [split|split]; simpl.
  - split; [reflexivity | repeat constructor].
  - split; [reflexivity|].
    repeat constructor; vm_compute; intuition discriminate.
  - unfold num_states. simpl. lia.
  - unfold num_actions. simpl. lia.
Defined.

Lemma step_out_of_range_raises_witness :
  exists p,
    [[1#2; 1#2]; [1#2; 1#2]] !! O = Some p /\
    @loop_body _ (scripted no_script) drift (1#2) (1#10) 1 fixture_start
               (World [1%nat] [])
    = (Raise IndexError,
       World (scripted_weighted p [1%nat]).2 ([] ++ [EvEnvStep 0])).
Proof.
  apply (@step_out_of_range_raises _ (scripted no_script) drift
           (1#2) (1#10) 1 fixture_start (World [1%nat] [])
           7%nat 0 false O).
  - vm_compute. intuition discriminate.
  - unfold num_actions. simpl. lia.
  - exact drift_start_wf.
  - reflexivity.
  - unfold num_states. simpl. lia.
Defined.

(** ** The policy row at the ends of the range of [epsilon] *)

Section Extremes.

Context {G : Type} `{RandomSource G}.
Variable E : Environment.
Variable epsilon : Q.

(** With [epsilon = 1] the derivation writes the uniform row whatever the
    Q-values are; with [epsilon = 0] it writes probability one on the greedy
    action, an action attaining the maximum of the Q-table row, and zero on
    every other action. *)
Theorem update_policy_at_extremes Q0 pi0 s (w : world G) :
  (0 < num_actions E)%nat ->
  table_dims (num_states E) (num_actions E) Q0 ->
  table_dims (num_states E) (num_actions E) pi0 ->
  (s < num_states E)%nat ->
  exists qrow b g row,
    Q0 !! s = Some qrow /\ argmax qrow b /\
    (b < num_actions E)%nat /\
    update_policy E epsilon Q0 pi0 s w
    = (Ret (<[s := row]> pi0), World g (log w)) /\
    length row = num_actions E /\
    (epsilon == 1 ->
     Forall (fun x => x == 1 / inject_Z (Z.of_nat (num_actions E))) row) /\
    (epsilon == 0 ->
     forall a, (a < num_actions E)%nat ->
       exists x, row !! a = Some x /\
                 x == (if (a =? b)%nat then 1 else 0)).
Proof.
  intros HA HQ Hpi Hs.
  destruct (update_policy_total E epsilon Q0 pi0 s w HA HQ Hpi Hs)
    as (qrow & bs & i & g & b & Hq & Hbs & _ & Hi & Hb & Hup).
  destruct (best_actions_of_spec qrow bs Hbs) as (_ & _ & Hmem).
  assert (Hpos : ~ inject_Z (Z.of_nat (num_actions E)) == 0).
  { pose proof (inject_A_pos E HA). lra. }
  exists qrow, b, g, (derived_row E epsilon b).
  split; [done|]. split; [apply Hmem; by eapply list_elem_of_lookup_2|].
  split; [done|]. split; [done|]. split; [apply length_derived_row|]. split.
  - intros He. unfold derived_row. apply Forall_fmap, Forall_forall.
    intros a _. simpl. unfold policy_entry, greedy_prob, explore_prob.
    destruct (a =? b)%nat; rewrite He; field; exact Hpos.
  - intros He a Ha. rewrite lookup_derived_row by done.
    eexists. split; [reflexivity|].
    unfold policy_entry, greedy_prob, explore_prob.
    destruct (a =? b)%nat; rewrite He; field; exact Hpos.
Qed.

End Extremes.

(** The row [1/3, 1/4] of state 0, derived once with [epsilon = 1] and once
    with [epsilon = 0]. *)
Lemma update_policy_at_extremes_witness :
  (exists qrow b g row,
     [[1#3; 1#4]; [0; 0]] !! O = Some qrow /\ argmax qrow b /\
     (b < 2)%nat /\
     @update_policy _ (scripted no_script) fixture 1
                    [[1#3; 1#4]; [0; 0]] [[1#2; 1#2]; [1#2; 1#2]] O
                    (World [] [])
     = (Ret (<[O := row]> [[1#2; 1#2]; [1#2; 1#2]]), World g []) /\
     length row = 2%nat /\
     (1 == 1 -> Forall (fun x => x == 1 / inject_Z (Z.of_nat 2)) row) /\
     (1 == 0 ->
      forall a, (a < 2)%nat ->
        exists x, row !! a = Some x /\
                  x == (if (a =? b)%nat then 1 else 0))) /\
  (exists qrow b g row,
     [[1#3; 1#4]; [0; 0]] !! O = Some qrow /\ argmax qrow b /\
     (b < 2)%nat /\
     @update_policy _ (scripted no_script) fixture 0
                    [[1#3; 1#4]; [0; 0]] [[1#2; 1#2]; [1#2; 1#2]] O
                    (World [] [])
     = (Ret (<[O := row]> [[1#2; 1#2]; [1#2; 1#2]]), World g []) /\
     length row = 2%nat /\
     (0 == 1 -> Forall (fun x => x == 1 / inject_Z (Z.of_nat 2)) row) /\
     (0 == 0 ->
      forall a, (a < 2)%nat ->
        exists x, row !! a = Some x /\
                  x == (if (a =? b)%nat then 1 else 0))).
Proof.
  split.
  - apply (@update_policy_at_extremes _ (scripted no_script) fixture 1
             [[1#3; 1#4]; [0; 0]] [[1#2; 1#2]; [1#2; 1#2]] O (World [] [])).
    + unfold num_actions. simpl. lia.
    + split; [reflexivity | repeat constructor].
    + split; [reflexivity | repeat constructor].
    + unfold num_states. simpl. lia.
  - apply (@update_policy_at_extremes _ (scripted no_script) fixture 0
             [[1#3; 1#4]; [0; 0]] [[1#2; 1#2]; [1#2; 1#2]] O (World [] [])).
    + unfold num_actions. simpl. lia.
    + split; [reflexivity | repeat constructor].
    + split; [reflexivity | repeat constructor].
    + unfold num_states. simpl. lia.
Defined.

(** With [epsilon = 0] and the row [1/3, 1/4] the derived row is one on
    action 0 and zero on action 1. *)
Example greedy_row_at_epsilon_0 :
  @update_policy _ (scripted no_script) fixture 0
                 [[1#3; 1#4]; [0; 0]] [[1#2; 1#2]; [1#2; 1#2]] O
                 (World [] [])
  = (Ret [[1 - 0 + 0 / inject_Z 2; 0 / inject_Z 2]; [1#2; 1#2]],
     World [] []).
Proof. reflexivity. Qed.

(** ** Non-negative rewards keep the Q-table non-negative *)

Definition nonneg_table (t : table) : Prop := Forall (Forall (Qle 0)) t.

Section Nonnegative.

Context {G : Type} `{RandomSource G}.
Variable E : Environment.
Variables alpha epsilon gamma : Q.

Hypothesis alpha_range : 0 < alpha <= 1.
Hypothesis gamma_nonneg : 0 <= gamma.
Hypothesis rewards_nonneg : forall a e, 0 <= (env_step E a e).1.1.2.

Lemma nonneg_get2 t s a x : nonneg_table t -> get2 t s a = Ret x -> 0 <= x.
Proof.
  intros Ht (r & Hr & Hx)%get2_Ret.
  eapply Forall_lookup_1 in Ht; [|exact Hr].
  eapply Forall_lookup_1 in Ht; [|exact Hx]. exact Ht.
Qed.

Lemma update_Q_nonneg Q0 s a r ns na Q1 :
  nonneg_table Q0 -> 0 <= r ->
  update_Q alpha gamma Q0 s a r ns na = Ret Q1 -> nonneg_table Q1.
Proof.
  intros Ht Hr Hu.
  apply update_Q_Ret_inv in Hu as (q_next & q_old & Hn & Ho & Hset).
  apply (nonneg_get2 _ _ _ _ Ht) in Hn as Hqn.
  apply (nonneg_get2 _ _ _ _ Ht) in Ho as Hqo.
  apply set2_Ret in Hset as (row & Hrow & _ & ->).
  apply Forall_insert; [done|]. apply Forall_insert.
  - eapply Forall_lookup_1 in Ht; eauto.
  - unfold sarsa_update.
    assert (Htarget : 0 <= r + gamma * q_next).
    { pose proof (Qmult_le_0_compat _ _ gamma_nonneg Hqn). lra. }
    destruct alpha_range as [Ha0 Ha1].
    assert (Hstay : 0 <= (1 - alpha) * q_old)
      by (apply Qmult_le_0_compat; lra).
    assert (Hmove : 0 <= alpha * (r + gamma * q_next))
      by (apply Qmult_le_0_compat; lra).
    assert (Heq : q_old + alpha * (r + gamma * q_next - q_old)
                  == (1 - alpha) * q_old + alpha * (r + gamma * q_next))
      by ring.
    rewrite Heq. lra.
Qed.

Lemma run_from_nonneg Q0 pi0 V l :
  nonneg_table Q0 -> run_from E alpha epsilon gamma Q0 pi0 V l ->
  nonneg_table (Qtab l).
Proof.
  intros H0 Hrun. induction Hrun as
    [env0 w w' l Hinit | V l w w' l' Hrun IH Hd Hbody
     | V l w w' l' Hrun IH Hd Hinit].
  - apply episode_init_Ret_inv in Hinit as (-> & _). done.
  - destruct (env_step E (action l) (env l)) as [[[ns r] d] e'] eqn:Hstep.
    destruct (loop_body_Ret_inv E alpha epsilon gamma l w l' w' ns r d e'
                Hstep Hbody) as (p & g1 & _ & _ & HuQ & _).
    eapply update_Q_nonneg; [exact IH| |exact HuQ].
    specialize (rewards_nonneg (action l) (env l)).
    by rewrite Hstep in rewards_nonneg.
  - apply episode_init_Ret_inv in Hinit as (-> & _). exact IH.
Qed.

End Nonnegative.

(** With a step size of at most one and an environment whose rewards are
    never negative, no entry of the Q-table a completed run ends with is
    negative. *)
Theorem sarsa_result_nonneg {G : Type} `{RandomSource G} (E : Environment)
    (alpha epsilon gamma : Q) fuel num_episodes seed (w w' : world G)
    Q1 pi1 :
  alpha <= 1 -> (forall a e, 0 <= (env_step E a e).1.1.2) ->
  sarsa E alpha epsilon gamma fuel num_episodes seed w
  = (Ret (Q1, pi1), w') ->
  nonneg_table Q1.
Proof.
  intros Ha Hrew Hs.
  assert (Hv : validate alpha epsilon gamma num_episodes = Ret tt).
  { rewrite sarsa_unfold in Hs.
    destruct (validate_cases alpha epsilon gamma num_episodes)
      as [Hv|[msg Hv]]; [done|]. rewrite Hv in Hs. discriminate. }
  apply validate_Ret_iff in Hv as (Ha0 & _ & [Hg _] & _).
  apply (sarsa_result_reachable E alpha epsilon gamma) in Hs.
  destruct Hs as (_ & pi0 & V & l & _ & Hrun & <- & _).
  eapply (run_from_nonneg E alpha epsilon gamma); eauto.
  apply Forall_replicate, Forall_replicate. lra.
Qed.

Lemma fixture_rewards_nonneg : forall a e, 0 <= (fixture_step a e).1.1.2.
Proof.
  intros a e. destruct e as [|e]; destruct a as [|a]; simpl; discriminate.
Defined.

Lemma sarsa_result_nonneg_witness :
  nonneg_table [[0 + (1#2) * (1 + 1 * 0 - 0); 0]; [0; 0]].
Proof.
  apply (@sarsa_result_nonneg _ (scripted (fun _ => [O])) fixture
           (1#2) 0 1 5 1 0 (World [] [])
           (World [] [EvFileWriter; EvEnvFn; EvEnvSeed 0; EvEnvReset;
                      EvEnvStep 0; EvScalar "episode_length" 1 0;
                      EvScalar "episode_return" (0 + 1) 0;
                      EvEnvClose; EvWriterClose])
           _ [[1 - 0 + 0 / inject_Z 2; 0 / inject_Z 2]; [1#2; 1#2]]).
  - discriminate.
  - exact fixture_rewards_nonneg.
  - reflexivity.
Defined.

(** ** The fixture, once more *)

(** One scripted run of the scenario: the first action drawn is action 0. *)
Definition fixture_final_world : world (list nat) :=
  World [] [EvFileWriter; EvEnvFn; EvEnvSeed 0; EvEnvReset; EvEnvStep 0;
            EvScalar "episode_length" 1 0;
            EvScalar "episode_return" (0 + 1) 0;
            EvEnvClose; EvWriterClose].

Lemma fixture_scripted_run :
  @sarsa _ (scripted (fun _ => [O])) fixture (1#2) 0 1 5 1 0 (World [] [])
  = (Ret ([[0 + (1#2) * (1 + 1 * 0 - 0); 0]; [0; 0]],
          [[1 - 0 + 0 / inject_Z 2; 0 / inject_Z 2]; [1#2; 1#2]]),
     fixture_final_world).
Proof. reflexivity. Defined.

Lemma fixture_scripted_episode :
  @episode _ (scripted no_script) fixture (1#2) (1#10) 1 3 4 O
           [[0; 0]; [0; 0]] [[1#2; 1#2]; [1#2; 1#2]] (World [] [])
  = (Ret fixture_after,
     World [] [EvEnvReset; EvEnvStep 0; EvScalar "episode_length" 1 4;
               EvScalar "episode_return" (0 + 1) 4]).
Proof. reflexivity. Defined.

Lemma episode_log_witness :
  exists acts,
    [EvEnvReset; EvEnvStep 0; EvScalar "episode_length" 1 4;
     EvScalar "episode_return" (0 + 1) 4]
    = [] ++ EvEnvReset :: map EvEnvStep acts ++
      [EvScalar "episode_length" (inject_Z (Z.of_nat (length acts))) 4;
       EvScalar "episode_return" (episode_return fixture_after) 4] /\
    episode_length fixture_after = length acts.
Proof.
  exact (@episode_log _ (scripted no_script) fixture (1#2) (1#10) 1 3 4 O
           [[0; 0]; [0; 0]] [[1#2; 1#2]; [1#2; 1#2]] (World [] []) _ _
           fixture_scripted_episode).
Defined.

Lemma sarsa_log_witness :
  exists evs,
    log fixture_final_world
    = [] ++ [EvFileWriter; EvEnvFn; EvEnvSeed 0] ++ evs
         ++ [EvEnvClose; EvWriterClose] /\
    Forall loop_event evs /\
    count_resets evs = Z.to_nat 1 /\
    map fst (length_reports evs) = seq 0 (Z.to_nat 1) /\
    Qsum (map snd (length_reports evs))
    == inject_Z (Z.of_nat (count_steps evs)).
Proof.
  exact (@sarsa_log _ (scripted (fun _ => [O])) fixture (1#2) 0 1 5 1 0
           (World [] []) _ _ _ fixture_scripted_run).
Defined.

Lemma sarsa_result_shape_witness :
  table_dims 2 2 [[0 + (1#2) * (1 + 1 * 0 - 0); 0]; [0; 0]] /\
  table_dims 2 2 [[1 - 0 + 0 / inject_Z 2; 0 / inject_Z 2]; [1#2; 1#2]] /\
  Forall (fun row => pvals_ok row = true)
         [[1 - 0 + 0 / inject_Z 2; 0 / inject_Z 2]; [1#2; 1#2]].
Proof.
  exact (@sarsa_result_shape _ (scripted (fun _ => [O])) fixture (1#2) 0 1
           5 1 0 (World [] []) _ _ _ fixture_scripted_run).
Defined.

Lemma stray_run :
  @sarsa _ (scripted no_script) stray (1#2) (1#10) 1 5 3 0 (World [] [])
  = (Raise IndexError,
     World [] [EvFileWriter; EvEnvFn; EvEnvSeed 0; EvEnvReset]).
Proof. reflexivity. Defined.

Lemma sarsa_failure_leaves_open_witness :
  exists evs,
    [EvFileWriter; EvEnvFn; EvEnvSeed 0; EvEnvReset] = [] ++ evs /\
    (EvEnvClose ∉ evs) /\ (EvWriterClose ∉ evs).
Proof.
  apply (@sarsa_failure_leaves_open _ (scripted no_script) stray
           (1#2) (1#10) 1 5 3 0 (World [] []) _ _ stray_run).
  intros r. discriminate.
Defined.

Lemma rejected_run :
  @sarsa _ (scripted no_script) fixture 0 (1#10) 1 5 3 0 (World [] [])
  = (Raise (AssertionError "epsilon must be in (0, 1]"), World [] []).
Proof. reflexivity. Defined.

Lemma sarsa_raises_no_index_error_witness :
  AssertionError "epsilon must be in (0, 1]" <> IndexError /\
  AssertionError "epsilon must be in (0, 1]" <> ZeroDivisionError.
Proof.
  apply (@sarsa_raises_no_index_error _ (scripted no_script) fixture
           0 (1#10) 1 5 3 0 (World [] []) (World [] []) _).
  - unfold num_actions. simpl. lia.
  - exact fixture_env_ok.
  - exact rejected_run.
Defined.

(** ** The reported return *)

Section Return.

Context {G : Type} `{RandomSource G}.
Variable E : Environment.
Variables alpha epsilon gamma : Q.

(** The rewards the environment hands out when the actions [acts] are taken
    in turn from the environment state [e]. *)
Fixpoint env_rewards (e : env_t E) (acts : list nat) : list Q :=
  match acts with
  | [] => []
  | a :: acts' =>
      let '(_, reward, _, e') := env_step E a e in
      reward :: env_rewards e' acts'
  end.

Lemma while_loop_return fuel l (w w' : world G) l' :
  while_loop E alpha epsilon gamma fuel l w = (Ret l', w') ->
  exists acts,
    log w' = log w ++ map EvEnvStep acts /\
    episode_return l' == episode_return l + Qsum (env_rewards (env l) acts).
Proof.
  revert l w. induction fuel as [|fuel IH]; intros l w; simpl;
    destruct (done l); intros Hw.
  - inv_run. exists []. simpl. rewrite app_nil_r. split; [done | ring].
  - discriminate.
  - inv_run. exists []. simpl. rewrite app_nil_r. split; [done | ring].
  - apply bind_Ret_inv in Hw as (l1 & w1 & Hbody & Hrest).
    destruct (env_step E (action l) (env l)) as [[[ns r] d] e'] eqn:Hstep.
    destruct (loop_body_Ret_inv E alpha epsilon gamma l w l1 w1 ns r d e'
                Hstep Hbody)
      as (_ & _ & _ & _ & _ & _ & Henv & _ & _ & _ & Hret).
    apply loop_body_log in Hbody as [Hlog1 _].
    apply IH in Hrest as (acts & Hlog & Hsum).
    exists (action l :: acts). simpl. rewrite Hstep. split.
    + by rewrite Hlog, Hlog1, <- app_assoc.
    + rewrite Hsum, Hret, Henv. simpl. ring.
Qed.

(** The return written to the summary is the undiscounted sum of the rewards
    of the steps the episode took, replayed from the state the reset left
    the environment in. *)
Theorem episode_return_sums_rewards fuel i env0 Q0 pi0 (w w' : world G) l :
  episode E alpha epsilon gamma fuel i env0 Q0 pi0 w = (Ret l, w') ->
  exists acts ret,
    log w' = log w ++ EvEnvReset :: map EvEnvStep acts ++
      [EvScalar "episode_length" (inject_Z (Z.of_nat (length acts))) i;
       EvScalar "episode_return" ret i] /\
    ret == Qsum (env_rewards (env_reset E env0).2 acts).
Proof.
  intros Hep.
  apply episode_Ret_inv in Hep as (l0 & w0 & w1 & Hinit & Hw & _ & Hlog).
  apply episode_init_Ret_inv in Hinit
    as (_ & _ & _ & Hlen0 & Hret0 & _ & Henv0 & Hlog0 & _).
  pose proof (while_loop_log E alpha epsilon gamma fuel l0 w0 w1 l Hw)
    as (acts' & Hlogw' & Hlen).
  apply while_loop_return in Hw as (acts & Hlogw & Hsum).
  assert (acts' = acts) as ->.
  { rewrite Hlogw in Hlogw'. apply app_inv_head in Hlogw'.
    symmetry. revert Hlogw'. generalize acts'. clear.
    induction acts as [|a acts IH]; intros [|a' acts']; simpl; try done.
    intros [= -> Hrest]. f_equal. by apply IH. }
  exists acts, (episode_return l). split.
  - rewrite Hlog, Hlogw, Hlog0, Hlen, Hlen0, <- !app_assoc. done.
  - rewrite Hsum, Hret0, Henv0. ring.
Qed.

End Return.

Lemma episode_return_sums_rewards_witness :
  exists acts ret,
    [EvEnvReset; EvEnvStep 0; EvScalar "episode_length" 1 4;
     EvScalar "episode_return" (0 + 1) 4]
    = [] ++ EvEnvReset :: map EvEnvStep acts ++
      [EvScalar "episode_length" (inject_Z (Z.of_nat (length acts))) 4;
       EvScalar "episode_return" ret 4] /\
    ret == Qsum (env_rewards fixture (env_reset fixture O).2 acts).
Proof.
  exact (@episode_return_sums_rewards _ (scripted no_script) fixture
           (1#2) (1#10) 1 3 4 O
           [[0; 0]; [0; 0]] [[1#2; 1#2]; [1#2; 1#2]] (World [] []) _ _
           fixture_scripted_episode).
Defined.

(** ** Rows of states no iteration has left *)

(** In a run from the initial tables, the Q-table row of a state from which
    no step was taken is still all zeros: whatever was estimated for the
    actions leading into a state, its own row is written only once the loop
    acts from it. *)
Theorem untouched_Q_rows_stay_zero {G : Type} `{RandomSource G}
    (E : Environment) (alpha epsilon gamma : Q) pi0 V l s :
  0 <= epsilon <= 1 -> initial_pi E = Ret pi0 ->
  run_from E alpha epsilon gamma (initial_Q E) pi0 V l ->
  (s < num_states E)%nat -> s ∉ V ->
  Qtab l !! s = Some (replicate (num_actions E) 0).
Proof.
  intros Heps Hinit Hrun Hs HV.
  assert (HA : (0 < num_actions E)%nat).
  { unfold initial_pi in Hinit.
    destruct (Nat.eqb_spec (num_actions E) 0); [discriminate | lia]. }
  destruct (initial_tables_ok E epsilon Heps HA) as [Hpi0 Htab].
  rewrite Hpi0 in Hinit. injection Hinit as <-.
  destruct (run_from_invariant E alpha epsilon gamma Heps HA _ _ _ _ Htab Hrun)
    as [_ Hframe].
  destruct (Hframe s HV) as [_ ->]. unfold initial_Q.
  by apply lookup_replicate_2.
Qed.

Lemma untouched_Q_rows_stay_zero_witness :
  Qtab fixture_after !! 1%nat = Some (replicate 2 0).
Proof.
  apply (@untouched_Q_rows_stay_zero _ (scripted no_script) fixture
           (1#2) (1#10) 1 [[1#2; 1#2]; [1#2; 1#2]] [O] fixture_after 1%nat).
  - vm_compute. intuition discriminate.
  - reflexivity.
  - exact fixture_run_one_iteration.
  - unfold num_states. simpl. lia.
  - intros Hin. apply elem_of_cons in Hin as [Hin|Hin];
      [discriminate | inversion Hin].
Defined.

(** ** The first iteration of an episode *)

Section EpisodeOnce.

Context {G : Type} `{RandomSource G}.
Variable E : Environment.
Variables alpha epsilon gamma : Q.

(** C10.  With tables of the right shape and an environment that answers
    within its observation space, an episode always enters the loop.  After
    the reset it runs the loop body once before the termination flag is
    looked at again: the environment is stepped once, and the Q-table entry
    of the start state and first action is overwritten with the SARSA value
    [q_old + alpha * ((reward + gamma * q_next) - q_old)].  An episode that
    returns has taken that step and possibly more, and the episode length it
    writes to the summary is the number of steps, at least 1.  When the very
    first step signals termination the episode returns, having written
    length 1. *)
Theorem episode_iterates_at_least_once fuel i env0 Q0 pi0 (w : world G) :
  0 <= epsilon <= 1 -> (0 < num_actions E)%nat ->
  env_ok E -> tables_ok E epsilon Q0 pi0 ->
  exists l0 w0 l1 w1 ns r d e' q_old q_next,
    episode_init E env0 Q0 pi0 w = (Ret l0, w0) /\
    env_step E (action l0) (env l0) = (ns, r, d, e') /\
    loop_body E alpha epsilon gamma l0 w0 = (Ret l1, w1) /\
    log w1 = log w ++ [EvEnvReset; EvEnvStep (action l0)] /\
    update_Q alpha gamma Q0 (state l0) (action l0) r ns (action l1)
    = Ret (Qtab l1) /\
    get2 Q0 (state l0) (action l0) = Ret q_old /\
    get2 Q0 ns (action l1) = Ret q_next /\
    get2 (Qtab l1) (state l0) (action l0)
    = Ret (q_old + alpha * ((r + gamma * q_next) - q_old)) /\
    episode_length l1 = 1%nat /\ done l1 = d /\
    episode E alpha epsilon gamma (S fuel) i env0 Q0 pi0 w
    = bind (while_loop E alpha epsilon gamma fuel l1)
           (fun l => bind (episode_summary E i l) (fun _ => ret l)) w1 /\
    (forall l w',
       episode E alpha epsilon gamma (S fuel) i env0 Q0 pi0 w = (Ret l, w') ->
       (1 <= episode_length l)%nat /\
       exists acts,
         episode_length l = S (length acts) /\
         log w' = log w ++
           EvEnvReset :: EvEnvStep (action l0) :: map EvEnvStep acts ++
           [EvScalar "episode_length"
                     (inject_Z (Z.of_nat (S (length acts)))) i;
            EvScalar "episode_return" (episode_return l) i]) /\
    (d = true ->
     exists w',
       episode E alpha epsilon gamma (S fuel) i env0 Q0 pi0 w = (Ret l1, w') /\
       log w' = log w ++
         [EvEnvReset; EvEnvStep (action l0);
          EvScalar "episode_length" 1 i;
          EvScalar "episode_return" (episode_return l1) i]).
Proof.
  intros Heps HA Henv Htab.
  destruct (episode_init_total E epsilon env0 Q0 pi0 w Heps HA Henv Htab)
    as (l0 & w0 & Hinit & Hwf).
  destruct (env_step E (action l0) (env l0)) as [[[ns r] d] e'] eqn:Hstep.
  destruct (loop_body_total E alpha epsilon gamma Heps HA l0 w0 ns r d e'
              Henv Hwf Hstep) as (l1 & w1 & Hbody & _).
  destruct (loop_body_Ret_inv E alpha epsilon gamma l0 w0 l1 w1 ns r d e'
              Hstep Hbody)
    as (p & g1 & _ & _ & HuQ & _ & _ & _ & Hd & Hlen & _).
  apply episode_init_Ret_inv in Hinit as Hinv.
  destruct Hinv as (HQ0 & _ & Hd0 & Hlen0 & _ & _ & _ & Hlog0 & _).
  destruct (loop_body_log E alpha epsilon gamma l0 w0 w1 l1 Hbody)
    as [Hlog1 _].
  assert (Hlogw1 : log w1 = log w ++ [EvEnvReset; EvEnvStep (action l0)]).
  { rewrite Hlog1, Hlog0, <- app_assoc. done. }
  assert (Hlen1 : episode_length l1 = 1%nat) by (by rewrite Hlen, Hlen0).
  rewrite HQ0 in HuQ.
  apply update_Q_Ret_inv in HuQ as Hwrite.
  destruct Hwrite as (q_next & q_old & Hqn & Hqo & Hset).
  assert (Hep : episode E alpha epsilon gamma (S fuel) i env0 Q0 pi0 w
                = bind (while_loop E alpha epsilon gamma fuel l1)
                    (fun l => bind (episode_summary E i l) (fun _ => ret l))
                    w1).
  { unfold episode. rewrite (bind_Ret_intro _ _ w l0 w0 Hinit).
    simpl. rewrite Hd0, bind_assoc.
    by rewrite (bind_Ret_intro _ _ w0 l1 w1 Hbody). }
  exists l0, w0, l1, w1, ns, r, d, e', q_old, q_next.
  split; [done|]. split; [done|]. split; [done|]. split; [done|].
  split; [done|]. split; [done|]. split; [done|].
  split; [by apply (get2_set2_eq _ _ _ _ _ Hset)|].
  split; [done|]. split; [done|]. split; [exact Hep|]. split.
  - intros l w'. rewrite Hep. intros Hr.
    apply bind_Ret_inv in Hr as (l2 & w2 & Hw & Hr).
    apply while_loop_log in Hw as (acts & Hlogw & Hlenw).
    unfold episode_summary in Hr. inv_run. simpl.
    rewrite Hlen1 in Hlenw. split; [lia|]. exists acts.
    split; [exact Hlenw|].
    rewrite Hlenw, Hlogw, Hlogw1, <- !app_assoc. done.
  - intros ->. rewrite Hep.
    rewrite (bind_Ret_intro _ _ w1 l1 w1 (while_loop_done E _ _ _ _ l1 w1 Hd)).
    unfold episode_summary, bind, emit, ret. simpl.
    eexists. split; [reflexivity|]. simpl.
    rewrite Hlen1, Hlogw1, <- !app_assoc. done.
Qed.

End EpisodeOnce.

Lemma episode_iterates_at_least_once_witness :
  exists l0 w0 l1 w1 ns r d e' q_old q_next,
    @episode_init _ (scripted no_script) fixture O
                  [[0; 0]; [0; 0]] [[1#2; 1#2]; [1#2; 1#2]] (World [] [])
    = (Ret l0, w0) /\
    fixture_step (action l0) (env l0) = (ns, r, d, e') /\
    @loop_body _ (scripted no_script) fixture (1#2) (1#10) 1 l0 w0
    = (Ret l1, w1) /\
    log w1 = [] ++ [EvEnvReset; EvEnvStep (action l0)] /\
    update_Q (1#2) 1 [[0; 0]; [0; 0]] (state l0) (action l0) r ns (action l1)
    = Ret (Qtab l1) /\
    get2 [[0; 0]; [0; 0]] (state l0) (action l0) = Ret q_old /\
    get2 [[0; 0]; [0; 0]] ns (action l1) = Ret q_next /\
    get2 (Qtab l1) (state l0) (action l0)
    = Ret (q_old + (1#2) * ((r + 1 * q_next) - q_old)) /\
    episode_length l1 = 1%nat /\ done l1 = d /\
    @episode _ (scripted no_script) fixture (1#2) (1#10) 1 3 O O
             [[0; 0]; [0; 0]] [[1#2; 1#2]; [1#2; 1#2]] (World [] [])
    = bind (@while_loop _ (scripted no_script) fixture (1#2) (1#10) 1 2 l1)
           (fun l => bind (episode_summary fixture O l) (fun _ => ret l))
           w1 /\
    (forall l w',
       @episode _ (scripted no_script) fixture (1#2) (1#10) 1 3 O O
                [[0; 0]; [0; 0]] [[1#2; 1#2]; [1#2; 1#2]] (World [] [])
       = (Ret l, w') ->
       (1 <= episode_length l)%nat /\
       exists acts,
         episode_length l = S (length acts) /\
         log w' = [] ++
           EvEnvReset :: EvEnvStep (action l0) :: map EvEnvStep acts ++
           [EvScalar "episode_length"
                     (inject_Z (Z.of_nat (S (length acts)))) O;
            EvScalar "episode_return" (episode_return l) O]) /\
    (d = true ->
     exists w',
       @episode _ (scripted no_script) fixture (1#2) (1#10) 1 3 O O
                [[0; 0]; [0; 0]] [[1#2; 1#2]; [1#2; 1#2]] (World [] [])
       = (Ret l1, w') /\
       log w' = [] ++
         [EvEnvReset; EvEnvStep (action l0);
          EvScalar "episode_length" 1 O;
          EvScalar "episode_return" (episode_return l1) O]).
Proof.
  apply (@episode_iterates_at_least_once _ (scripted no_script) fixture
           (1#2) (1#10) 1 2 O O [[0; 0]; [0; 0]] [[1#2; 1#2]; [1#2; 1#2]]
           (World [] [])).
  - vm_compute. intuition discriminate.
  - unfold num_actions. simpl. lia.
  - exact fixture_env_ok.
  - exact fixture_tables_ok.
Defined.

(** ** A step beyond the target *)



